(** * The acknowledgement pipeline of the streaming-pull subscriber

    A shallow embedding of
    - [google/cloud/pubsub_v1/subscriber/_protocol/dispatcher.py]
      (class [Dispatcher]) and
    - [google/cloud/pubsub_v1/subscriber/message.py] (class [Message]),
    together with the properties of the batching dispatcher and of the
    message handle.

    Python objects that the two files share (the request queue, the manager
    with its leaser and histogram, the dispatcher's worker thread, the wall
    clock, the warnings emitted) live in one [World]; every method is a
    computation in a state-and-exception monad over it.  A collaborator call
    ([manager.send], [leaser.add], ...) is recorded, in order, in the world's
    call log: the collaborators are external, their results are never read by
    the code, and the code has no [try]/[except], so the log is the sequence
    of calls the method issues while every collaborator returns. *)

From Stdlib Require Import List ZArith QArith Qround Qpower Qabs String Ascii Bool
  Lia Lqa PeanoNat.
Import ListNotations.

Local Open Scope string_scope.
Local Open Scope list_scope.
Local Open Scope nat_scope.

(** ** The request records ([requests.py]) *)

Module requests.

(** Modelled from the spec: [requests.LeaseRequest], the named tuple
    [LeaseRequest{ack_id, byte_size, ordering_key}] of the data model. *)
Module LeaseRequest.
Record t : Type := mk
  { ack_id : string; byte_size : Z; ordering_key : string }.
End LeaseRequest.

(** Modelled from the spec: [requests.ModAckRequest], the named tuple
    [ModAckRequest{ack_id, seconds}]. *)
Module ModAckRequest.
Record t : Type := mk
  { ack_id : string; seconds : Z }.
End ModAckRequest.

(** Modelled from the spec: [requests.AckRequest], the named tuple
    [AckRequest{ack_id, byte_size, time_to_ack(optional), ordering_key}];
    [None] is Python's [None]. *)
Module AckRequest.
Record t : Type := mk
  { ack_id : string; byte_size : Z; time_to_ack : option Z;
    ordering_key : string }.
End AckRequest.

(** Modelled from the spec: [requests.NackRequest], the named tuple
    [NackRequest{ack_id, byte_size, ordering_key}]. *)
Module NackRequest.
Record t : Type := mk
  { ack_id : string; byte_size : Z; ordering_key : string }.

(** The tuple of the fields, in declaration order: what [*item] unpacks. *)
Definition astuple (r : t) : string * Z * string :=
  (ack_id r, byte_size r, ordering_key r).
End NackRequest.

(** Modelled from the spec: [requests.DropRequest], the named tuple
    [DropRequest{ack_id, byte_size, ordering_key}]. *)
Module DropRequest.
Record t : Type := mk
  { ack_id : string; byte_size : Z; ordering_key : string }.

(** [DropRequest( *args )]: positional construction from three values. *)
Definition of_tuple (a : string * Z * string) : t :=
  let '(i, b, k) := a in mk i b k.
End DropRequest.

End requests.
Import requests.

(** [RequestItem = Union[AckRequest, DropRequest, LeaseRequest,
    ModAckRequest, NackRequest]]. *)
Inductive RequestItem : Type :=
| Lease (r : LeaseRequest.t)
| ModAck (r : ModAckRequest.t)
| Ack (r : AckRequest.t)
| Nack (r : NackRequest.t)
| Drop (r : DropRequest.t).

(** What a batch may hold at run time: a request item, or any other Python
    object, of which only [type(item)], as formatted in a string, is used. *)
Inductive QueueItem : Type :=
| request_item (r : RequestItem)
| foreign_object (type_repr : string).

(** An entry of the request queue: an item, or the poison pill
    [helper_threads.STOP]. *)
Inductive QueueEntry : Type :=
| entry (x : QueueItem)
| STOP.

(** The argument type of [Dispatcher.drop] and of [leaser.remove]:
    [Union[AckRequest, DropRequest, NackRequest]]. *)
Module DropItem.
Inductive t : Type :=
| of_ack (r : AckRequest.t)
| of_drop (r : DropRequest.t)
| of_nack (r : NackRequest.t).

Definition ack_id (x : t) : string :=
  match x with
  | of_ack r => AckRequest.ack_id r
  | of_drop r => DropRequest.ack_id r
  | of_nack r => NackRequest.ack_id r
  end.

Definition byte_size (x : t) : Z :=
  match x with
  | of_ack r => AckRequest.byte_size r
  | of_drop r => DropRequest.byte_size r
  | of_nack r => NackRequest.byte_size r
  end.

Definition ordering_key (x : t) : string :=
  match x with
  | of_ack r => AckRequest.ordering_key r
  | of_drop r => DropRequest.ordering_key r
  | of_nack r => NackRequest.ordering_key r
  end.
End DropItem.

(** ** The outbound protocol request ([gapic_types.StreamingPullRequest]) *)

(** Modelled from the spec: the outbound protocol request shape, carrying a
    list of ack ids to acknowledge and a list of ack ids paired positionally
    with a list of seconds.  A field that the constructor is not given is
    empty. *)
Module StreamingPullRequest.
Record t : Type := mk
  { ack_ids : list string;
    modify_deadline_ack_ids : list string;
    modify_deadline_seconds : list Z }.
End StreamingPullRequest.

(** ** The world *)

(** A call on a collaborator, with its argument. *)
Inductive Call : Type :=
| leaser_add (items : list LeaseRequest.t)
| leaser_remove (items : list DropItem.t)
| maybe_pause_consumer
| maybe_resume_consumer
| send (request : StreamingPullRequest.t)
| ack_histogram_add (time_to_ack : Z)
| activate_ordering_keys (ordering_keys : list string).

(** The worker that [Dispatcher.start] builds with
    [helper_threads.QueueCallbackWorker(queue, callback, max_items=...,
    max_latency=...)]: its two bounds (its queue is the world's, its
    callback is [dispatch_callback]). *)
Record QueueCallbackWorker : Type :=
  { max_items : nat; max_latency : Q }.

(** [threading.Thread(name=..., target=...)] and its [daemon] flag. *)
Record Thread : Type :=
  { name : string; target : QueueCallbackWorker; daemon : bool }.

Record World : Type := mkWorld
  { (** [self._manager.leaser is not None] *)
    leaser_present : bool;
    (** the collaborator calls issued so far, oldest first *)
    calls : list Call;
    (** the messages given to [warnings.warn], oldest first *)
    warned : list string;
    (** the shared request queue, oldest first *)
    queue : list QueueEntry;
    (** [Dispatcher._thread] *)
    _thread : option Thread;
    (** the threads on which [Thread.start] was called, oldest first *)
    started : list Thread;
    (** the reading of [time.time()]: a float, as the rational it is *)
    now : Q }.

Definition add_call (c : Call) (w : World) : World :=
  mkWorld (leaser_present w) (calls w ++ [c]) (warned w) (queue w)
          (_thread w) (started w) (now w).

Definition add_warning (msg : string) (w : World) : World :=
  mkWorld (leaser_present w) (calls w) (warned w ++ [msg]) (queue w)
          (_thread w) (started w) (now w).

Definition enqueue (e : QueueEntry) (w : World) : World :=
  mkWorld (leaser_present w) (calls w) (warned w) (queue w ++ [e])
          (_thread w) (started w) (now w).

Definition set_thread (t : option Thread) (w : World) : World :=
  mkWorld (leaser_present w) (calls w) (warned w) (queue w)
          t (started w) (now w).

Definition add_started (t : Thread) (w : World) : World :=
  mkWorld (leaser_present w) (calls w) (warned w) (queue w)
          (_thread w) (started w ++ [t]) (now w).

Definition set_now (t : Q) (w : World) : World :=
  mkWorld (leaser_present w) (calls w) (warned w) (queue w)
          (_thread w) (started w) t.

(** ** The monad of methods *)

Inductive Exn : Type :=
| ValueError (msg : string)
| AssertionError
| OverflowError (msg : string)
| OSError (msg : string).

Inductive Outcome (A : Type) : Type :=
| Returned (a : A)
| Raised (e : Exn).
Arguments Returned {A} a.
Arguments Raised {A} e.

Definition M (A : Type) : Type := World -> Outcome A * World.

Definition ret {A : Type} (a : A) : M A := fun w => (Returned a, w).

Definition bind {A B : Type} (m : M A) (k : A -> M B) : M B :=
  fun w =>
    match m w with
    | (Returned a, w') => k a w'
    | (Raised e, w') => (Raised e, w')
    end.

Definition raise {A : Type} (e : Exn) : M A := fun w => (Raised e, w).

(** A call of a Python function that returns or raises and touches nothing
    of the world. *)
Definition of_outcome {A : Type} (o : Outcome A) : M A := fun w => (o, w).

Declare Scope method_scope.
Delimit Scope method_scope with method.
Notation "x <- c ;; k" := (bind c (fun x => k))
  (at level 61, c at next level, right associativity) : method_scope.
Notation "c ;; k" := (bind c (fun _ => k))
  (at level 61, right associativity) : method_scope.
Local Open Scope method_scope.

(** Reads and writes of the world. *)
Definition gets {A : Type} (f : World -> A) : M A := fun w => (Returned (f w), w).
Definition modify (f : World -> World) : M unit := fun w => (Returned tt, f w).

(** A collaborator call that returns. *)
Definition call (c : Call) : M unit := modify (add_call c).

(** [assert cond] *)
Definition assert_ (cond : bool) : M unit :=
  if cond then ret tt else raise AssertionError.

(** [for x in xs: body(x)] *)
Fixpoint for_each {A : Type} (body : A -> M unit) (xs : list A) : M unit :=
  match xs with
  | [] => ret tt
  | x :: xs' => body x ;; for_each body xs'
  end.

(** The final world and the outcome of a method. *)
Definition exec {A : Type} (m : M A) (w : World) : World := snd (m w).
Definition outcome {A : Type} (m : M A) (w : World) : Outcome A := fst (m w).

(** The double quote character, as a string. *)
Definition dquote : string := String (ascii_of_nat 34) EmptyString.

(** Python truthiness of a string: non-empty. *)
Definition truthy (s : string) : bool :=
  match s with
  | EmptyString => false
  | String _ _ => true
  end.

(** Python truthiness of a list: non-empty. *)
Definition nonempty {A : Type} (l : list A) : bool :=
  match l with
  | [] => false
  | _ :: _ => true
  end.

(** [itertools.islice(it, n)] consumed to the end: the next [n] elements of
    the iterator (fewer when it is exhausted first), and the iterator
    advanced past them. *)
Definition islice {A : Type} (it : list A) (n : nat) : list A * list A :=
  (firstn n it, skipn n it).

(** ** [dispatcher.py] *)

Module Dispatcher.

Definition _CALLBACK_WORKER_NAME : string := "Thread-CallbackRequestDispatcher".

(** The maximum number of requests to process and dispatch at a time. *)
Definition _MAX_BATCH_SIZE : nat := 100.

(** The maximum time in seconds to wait for additional request items. *)
Definition _MAX_BATCH_LATENCY : Q := 1 # 100.

(** The maximum number of ACK IDs to send in a single request. *)
Definition _ACK_IDS_BATCH_SIZE : nat := 2500.

(** [int(math.ceil(n / _ACK_IDS_BATCH_SIZE))], the quotient of the true
    division taken as a rational (for a length below 2^53 the float
    quotient has the same ceiling). *)
Definition total_chunks (n : nat) : nat :=
  Z.to_nat (Qceiling (Z.of_nat n # Pos.of_nat _ACK_IDS_BATCH_SIZE)).

Section Lifecycle.

(** [helper_threads] is not part of these sources.  What
    [thread.join()] leaves behind once it returns (the worker has taken
    entries off the queue up to the poison pill and has dispatched its
    batches) is a parameter. *)
Variable join : Thread -> World -> World.

(** [Dispatcher.start].  The [with self._operational_lock] block makes
    the method atomic with respect to [stop]; the lock is free again
    when the block is left, by return or by exception. *)
Definition start : M unit :=
  t <- gets _thread ;;
  match t with
  | Some _ => raise (ValueError "Dispatcher is already running.")
  | None =>
      let worker :=
        {| max_items := _MAX_BATCH_SIZE;
           max_latency := _MAX_BATCH_LATENCY |} in
      let thread :=
        {| name := _CALLBACK_WORKER_NAME; target := worker;
           daemon := true |} in
      modify (add_started thread) ;;
      modify (set_thread (Some thread))
  end.

(** [Dispatcher.stop], under the same lock. *)
Definition stop : M unit :=
  t <- gets _thread ;;
  match t with
  | Some thread =>
      modify (enqueue STOP) ;;
      modify (join thread)
  | None => ret tt
  end ;;
  modify (set_thread None).

End Lifecycle.

(** The five local lists of [dispatch_callback]. *)
Record Buckets : Type := mkBuckets
  { lease_requests : list LeaseRequest.t;
    modack_requests : list ModAckRequest.t;
    ack_requests : list AckRequest.t;
    nack_requests : list NackRequest.t;
    drop_requests : list DropRequest.t }.

Definition no_requests : Buckets := mkBuckets [] [] [] [] [].

(** [f'Skipping unknown request item of type "{type(item)}"'] *)
Definition unknown_item_warning (type_repr : string) : string :=
  ("Skipping unknown request item of type " ++ dquote ++ type_repr ++ dquote)%string.

(** One turn of the classification loop: the [isinstance] chain.  Under
    the default warning filters [warnings.warn] reports and returns. *)
Definition classify (b : Buckets) (x : QueueItem) : M Buckets :=
  match x with
  | request_item (Lease r) =>
      ret (mkBuckets (lease_requests b ++ [r]) (modack_requests b)
             (ack_requests b) (nack_requests b) (drop_requests b))
  | request_item (ModAck r) =>
      ret (mkBuckets (lease_requests b) (modack_requests b ++ [r])
             (ack_requests b) (nack_requests b) (drop_requests b))
  | request_item (Ack r) =>
      ret (mkBuckets (lease_requests b) (modack_requests b)
             (ack_requests b ++ [r]) (nack_requests b) (drop_requests b))
  | request_item (Nack r) =>
      ret (mkBuckets (lease_requests b) (modack_requests b)
             (ack_requests b) (nack_requests b ++ [r]) (drop_requests b))
  | request_item (Drop r) =>
      ret (mkBuckets (lease_requests b) (modack_requests b)
             (ack_requests b) (nack_requests b) (drop_requests b ++ [r]))
  | foreign_object type_repr =>
      modify (add_warning (unknown_item_warning type_repr)) ;;
      ret b
  end.

(** [for item in items: ...], threading the five lists. *)
Fixpoint classify_all (b : Buckets) (items : list QueueItem) : M Buckets :=
  match items with
  | [] => ret b
  | x :: items' => b' <- classify b x ;; classify_all b' items'
  end.

(** [Dispatcher.drop] *)
Definition drop (items : list DropItem.t) : M unit :=
  present <- gets leaser_present ;;
  assert_ present ;;
  call (leaser_remove items) ;;
  let ordering_keys :=
    filter truthy (map DropItem.ordering_key items) in
  call (activate_ordering_keys ordering_keys) ;;
  call maybe_resume_consumer.

(** [Dispatcher.lease] *)
Definition lease (items : list LeaseRequest.t) : M unit :=
  present <- gets leaser_present ;;
  assert_ present ;;
  call (leaser_add items) ;;
  call maybe_pause_consumer.

(** The loop [for _ in range(total_chunks)] of [ack]; [ack_ids] is the
    generator, advanced by each [islice]. *)
Fixpoint ack_chunks (total : nat) (ack_ids : list string) : M unit :=
  match total with
  | O => ret tt
  | S total' =>
      let '(chunk, ack_ids') := islice ack_ids _ACK_IDS_BATCH_SIZE in
      let request := StreamingPullRequest.mk chunk [] [] in
      call (send request) ;;
      ack_chunks total' ack_ids'
  end.

(** [Dispatcher.ack] *)
Definition ack (items : list AckRequest.t) : M unit :=
  for_each
    (fun item =>
       match AckRequest.time_to_ack item with
       | Some time_to_ack => call (ack_histogram_add time_to_ack)
       | None => ret tt
       end)
    items ;;
  let ack_ids := map AckRequest.ack_id items in
  ack_chunks (total_chunks (List.length items)) ack_ids ;;
  drop (map DropItem.of_ack items).

(** The loop of [modify_ack_deadline]; [ack_ids] and [seconds] are the two
    generators. *)
Fixpoint modack_chunks (total : nat) (ack_ids : list string)
         (seconds : list Z) : M unit :=
  match total with
  | O => ret tt
  | S total' =>
      let '(ids, ack_ids') := islice ack_ids _ACK_IDS_BATCH_SIZE in
      let '(secs, seconds') := islice seconds _ACK_IDS_BATCH_SIZE in
      let request := StreamingPullRequest.mk [] ids secs in
      call (send request) ;;
      modack_chunks total' ack_ids' seconds'
  end.

(** [Dispatcher.modify_ack_deadline] *)
Definition modify_ack_deadline (items : list ModAckRequest.t) : M unit :=
  let ack_ids := map ModAckRequest.ack_id items in
  let seconds := map ModAckRequest.seconds items in
  modack_chunks (total_chunks (List.length items)) ack_ids seconds.

(** [Dispatcher.nack] *)
Definition nack (items : list NackRequest.t) : M unit :=
  modify_ack_deadline
    (map (fun item => ModAckRequest.mk (NackRequest.ack_id item) 0) items) ;;
  drop
    (map (fun item =>
            DropItem.of_drop (DropRequest.of_tuple (NackRequest.astuple item)))
         items).

(** [if xs: handler(xs)] *)
Definition when_nonempty {A : Type} (xs : list A) (handler : list A -> M unit)
  : M unit :=
  if nonempty xs then handler xs else ret tt.

(** [Dispatcher.dispatch_callback].  The [_LOGGER.debug] line has no effect
    on the world and is left out. *)
Definition dispatch_callback (items : list QueueItem) : M unit :=
  b <- classify_all no_requests items ;;
  when_nonempty (lease_requests b) lease ;;
  when_nonempty (modack_requests b) modify_ack_deadline ;;
  when_nonempty (ack_requests b) ack ;;
  when_nonempty (nack_requests b) nack ;;
  when_nonempty (drop_requests b)
    (fun xs => drop (map DropItem.of_drop xs)).

End Dispatcher.

(** ** Python's [float]

    A Python [float] is an IEEE 754 binary64 number.  The finite ones are
    rationals, and each arithmetic operation returns the exact result
    rounded to the nearest double, ties to the even significand.  The
    floats of [message.py] are clock readings, their differences, and the
    timestamp built from the int64 seconds and int32 nanoseconds of a
    protobuf [Timestamp]: all of them far below the largest double, so no
    operation here overflows, and the rounding is written without a largest
    exponent. *)
Module Float.

(** The significand has 53 bits; the least exponent of a normal double is
    -1022. *)
Definition precision : Z := 53.
Definition emin : Z := -1022.

Definition exp2 (e : Z) : Q := (2 ^ e)%Q.

(** The [e] with [2^e <= x < 2^(e+1)], for [x > 0]. *)
Definition binade (x : Q) : Z :=
  let e := (Z.log2 (Qnum x) - Z.log2 (Zpos (Qden x)))%Z in
  if Qle_bool (exp2 e) x then e else (e - 1)%Z.

(** The exponent of the unit in the last place of the doubles around [x];
    below [2^emin] the doubles are subnormal and their spacing is
    [2^-1074]. *)
Definition ulp_exponent (x : Q) : Z :=
  (Z.max (binade (Qabs x)) emin - (precision - 1))%Z.

(** The nearest integer, a tie going to the even one. *)
Definition rne (q : Q) : Z :=
  let f := Qfloor q in
  match Qcompare (q - inject_Z f) (1 # 2) with
  | Lt => f
  | Gt => (f + 1)%Z
  | Eq => if Z.even f then f else (f + 1)%Z
  end.

(** The double nearest to [x]. *)
Definition round (x : Q) : Q :=
  let e := ulp_exponent x in
  (inject_Z (rne (x * exp2 (- e))) * exp2 e)%Q.

(** [x] is a double. *)
Definition is_float (x : Q) : bool := Qeq_bool (round x) x.

(** [float(n)], [a + b], [a - b] and [a / b] on floats. *)
Definition of_int (n : Z) : Q := round (inject_Z n).
Definition add (a b : Q) : Q := round (a + b).
Definition sub (a b : Q) : Q := round (a - b).
Definition div (a b : Q) : Q := round (a / b).

(** [math.ceil(x)] of a finite float: an int, exactly. *)
Definition ceil (x : Q) : Z := Qceiling x.

End Float.

(** A [datetime.datetime] with [tzinfo=UTC]: an instant, in whole
    microseconds since the epoch. *)
Module datetime.
Record t : Type := of_microseconds { microseconds : Z }.
End datetime.

(** ** [message.py] *)

(** Modelled from the spec: the raw protobuf message handed to
    [Message.__init__], with the attributes the constructor reads;
    [ByteSize] is the value of [message.ByteSize()]. *)
Module PubsubMessage.
Record t : Type := mk
  { message_id : string;
    attributes : list (string * string);
    data : string;
    publish_time_seconds : Z;
    publish_time_nanos : Z;
    ordering_key : string;
    ByteSize : Z }.
End PubsubMessage.

Module Message.

(** The attributes of a [Message] object. *)
Record t : Type := mk
  { _message : PubsubMessage.t;
    _ack_id : string;
    _delivery_attempt : option Z;
    message_id : string;
    _received_timestamp : Q;
    _attributes : list (string * string);
    _data : string;
    _publish_time : datetime.t;
    _ordering_key : string;
    _size : Z }.

(** [message.publish_time.seconds + message.publish_time.nanos / 1e9]: the
    two ints become floats, the quotient and the sum are floats. *)
Definition publish_timestamp (message : PubsubMessage.t) : Q :=
  Float.add (Float.of_int (PubsubMessage.publish_time_seconds message))
            (Float.div (Float.of_int (PubsubMessage.publish_time_nanos message))
                       (inject_Z 1000000000)).

Section Construction.

(** [dt.datetime.fromtimestamp(_, tz=dt.timezone.utc)] is Python's own: on a
    float timestamp it returns the datetime, rounded to the microsecond, or
    it raises ([ValueError] for a year outside 1..9999, [OverflowError] or
    [OSError] where the platform cannot convert the timestamp). *)
Variable fromtimestamp : Q -> Outcome datetime.t.

(** [Message.__init__]; the request queue is the world's, and [time.time()]
    is the clock reading of the world.  When [fromtimestamp] raises, so does
    the constructor, and no handle is made. *)
Definition __init__ (message : PubsubMessage.t) (ack_id : string)
           (delivery_attempt : Z) : M t :=
  received <- gets now ;;
  publish_time <- of_outcome (fromtimestamp (publish_timestamp message)) ;;
  ret {| _message := message;
         _ack_id := ack_id;
         _delivery_attempt :=
           if (delivery_attempt >? 0)%Z then Some delivery_attempt else None;
         message_id := PubsubMessage.message_id message;
         _received_timestamp := received;
         _attributes := PubsubMessage.attributes message;
         _data := PubsubMessage.data message;
         _publish_time := publish_time;
         _ordering_key := PubsubMessage.ordering_key message;
         _size := PubsubMessage.ByteSize message |}.

End Construction.

(** The properties. *)
Definition ordering_key (self : t) : string := _ordering_key self.
Definition size (self : t) : Z := _size self.
Definition ack_id (self : t) : string := _ack_id self.
Definition delivery_attempt (self : t) : option Z := _delivery_attempt self.

(** [self._request_queue.put(x)] on the unbounded queue. *)
Definition _request_queue_put (r : RequestItem) : M unit :=
  modify (enqueue (entry (request_item r))).

(** A method of the handle runs on the handle and the world, and hands
    both back: [self] is a mutable object. *)
Definition method : Type := t -> World -> Outcome unit * (t * World).

Definition on_self (body : t -> M unit) : method :=
  fun self w => let '(o, w') := body self w in (o, (self, w')).

(** [Message.ack].  The two clock readings are floats, and so is their
    difference: the exact difference rounded to the nearest double. *)
Definition ack : method :=
  on_self (fun self =>
    t1 <- gets now ;;
    let time_to_ack := Float.ceil (Float.sub t1 (_received_timestamp self)) in
    _request_queue_put
      (Ack (AckRequest.mk (_ack_id self) (size self) (Some time_to_ack)
              (ordering_key self)))).

(** [Message.drop] *)
Definition drop : method :=
  on_self (fun self =>
    _request_queue_put
      (Drop (DropRequest.mk (_ack_id self) (size self) (ordering_key self)))).

(** [Message.modify_ack_deadline] *)
Definition modify_ack_deadline (seconds : Z) : method :=
  on_self (fun self =>
    _request_queue_put (ModAck (ModAckRequest.mk (_ack_id self) seconds))).

(** [Message.nack] *)
Definition nack : method :=
  on_self (fun self =>
    _request_queue_put
      (Nack (NackRequest.mk (_ack_id self) (size self) (ordering_key self)))).

End Message.

(** ** Vocabulary of the statements *)

Definition add_calls (cs : list Call) (w : World) : World :=
  mkWorld (leaser_present w) (calls w ++ cs) (warned w) (queue w)
          (_thread w) (started w) (now w).

Definition add_warnings (msgs : list string) (w : World) : World :=
  mkWorld (leaser_present w) (calls w) (warned w ++ msgs) (queue w)
          (_thread w) (started w) (now w).

(** The requests given to [manager.send], in call order. *)
Definition sent (cs : list Call) : list StreamingPullRequest.t :=
  flat_map (fun c => match c with send r => [r] | _ => [] end) cs.

(** [l] cut into [total] consecutive pieces of [size] elements (the last
    pieces shorter or empty when [l] runs out). *)
Fixpoint chunked {A : Type} (size total : nat) (l : list A) : list (list A) :=
  match total with
  | O => []
  | S total' => firstn size l :: chunked size total' (skipn size l)
  end.

(** The variants of a batch, each selected in input order. *)
Module Batch.

Definition is_lease (x : QueueItem) : bool :=
  match x with request_item (Lease _) => true | _ => false end.
Definition is_modack (x : QueueItem) : bool :=
  match x with request_item (ModAck _) => true | _ => false end.
Definition is_ack (x : QueueItem) : bool :=
  match x with request_item (Ack _) => true | _ => false end.
Definition is_nack (x : QueueItem) : bool :=
  match x with request_item (Nack _) => true | _ => false end.
Definition is_drop (x : QueueItem) : bool :=
  match x with request_item (Drop _) => true | _ => false end.
Definition is_request (x : QueueItem) : bool :=
  match x with request_item _ => true | foreign_object _ => false end.

Definition leases (items : list QueueItem) : list LeaseRequest.t :=
  flat_map (fun x => match x with request_item (Lease r) => [r] | _ => [] end)
           items.
Definition modacks (items : list QueueItem) : list ModAckRequest.t :=
  flat_map (fun x => match x with request_item (ModAck r) => [r] | _ => [] end)
           items.
Definition acks (items : list QueueItem) : list AckRequest.t :=
  flat_map (fun x => match x with request_item (Ack r) => [r] | _ => [] end)
           items.
Definition nacks (items : list QueueItem) : list NackRequest.t :=
  flat_map (fun x => match x with request_item (Nack r) => [r] | _ => [] end)
           items.
Definition drops (items : list QueueItem) : list DropRequest.t :=
  flat_map (fun x => match x with request_item (Drop r) => [r] | _ => [] end)
           items.
Definition foreign_types (items : list QueueItem) : list string :=
  flat_map (fun x => match x with foreign_object ty => [ty] | _ => [] end)
           items.

Definition buckets (items : list QueueItem) : Dispatcher.Buckets :=
  Dispatcher.mkBuckets (leases items) (modacks items) (acks items)
                       (nacks items) (drops items).

(** The warnings of a batch, one for each item that is not a request. *)
Definition warnings (items : list QueueItem) : list string :=
  map Dispatcher.unknown_item_warning (foreign_types items).

End Batch.

(** The five handlers of [dispatch_callback], run on given buckets in the
    order of the source. *)
Definition handle_buckets (b : Dispatcher.Buckets) : M unit :=
  Dispatcher.when_nonempty (Dispatcher.lease_requests b) Dispatcher.lease ;;
  Dispatcher.when_nonempty (Dispatcher.modack_requests b)
    Dispatcher.modify_ack_deadline ;;
  Dispatcher.when_nonempty (Dispatcher.ack_requests b) Dispatcher.ack ;;
  Dispatcher.when_nonempty (Dispatcher.nack_requests b) Dispatcher.nack ;;
  Dispatcher.when_nonempty (Dispatcher.drop_requests b)
    (fun xs => Dispatcher.drop (map DropItem.of_drop xs)).

(** The values recorded in the histogram for a list of ack requests. *)
Definition times_to_ack (items : list AckRequest.t) : list Z :=
  flat_map (fun i => match AckRequest.time_to_ack i with
                     | Some t => [t]
                     | None => []
                     end) items.

(** The three calls of the drop handling. *)
Definition drop_calls (items : list DropItem.t) : list Call :=
  [leaser_remove items;
   activate_ordering_keys (filter truthy (map DropItem.ordering_key items));
   maybe_resume_consumer].

(** The acknowledge requests for a list of ack ids. *)
Definition ack_requests_for (ack_ids : list string) : list StreamingPullRequest.t :=
  map (fun chunk => StreamingPullRequest.mk chunk [] [])
      (chunked Dispatcher._ACK_IDS_BATCH_SIZE
               (Dispatcher.total_chunks (List.length ack_ids)) ack_ids).

(** The deadline requests for a list of modack items. *)
Definition modack_requests_for (items : list ModAckRequest.t)
  : list StreamingPullRequest.t :=
  map (fun chunk =>
         StreamingPullRequest.mk [] (map ModAckRequest.ack_id chunk)
                                 (map ModAckRequest.seconds chunk))
      (chunked Dispatcher._ACK_IDS_BATCH_SIZE
               (Dispatcher.total_chunks (List.length items)) items).

(** The modack items and the drop items that [nack] builds. *)
Definition nack_modacks (items : list NackRequest.t) : list ModAckRequest.t :=
  map (fun item => ModAckRequest.mk (NackRequest.ack_id item) 0) items.

Definition nack_drops (items : list NackRequest.t) : list DropItem.t :=
  map (fun item =>
         DropItem.of_drop
           (DropRequest.mk (NackRequest.ack_id item) (NackRequest.byte_size item)
                           (NackRequest.ordering_key item))) items.

(** Two sets of buckets, appended bucket by bucket. *)
Definition append_buckets (b1 b2 : Dispatcher.Buckets) : Dispatcher.Buckets :=
  Dispatcher.mkBuckets
    (Dispatcher.lease_requests b1 ++ Dispatcher.lease_requests b2)
    (Dispatcher.modack_requests b1 ++ Dispatcher.modack_requests b2)
    (Dispatcher.ack_requests b1 ++ Dispatcher.ack_requests b2)
    (Dispatcher.nack_requests b1 ++ Dispatcher.nack_requests b2)
    (Dispatcher.drop_requests b1 ++ Dispatcher.drop_requests b2).

(** The calls of each handler when the manager has its leaser. *)
Definition lease_calls (items : list LeaseRequest.t) : list Call :=
  [leaser_add items; maybe_pause_consumer].

Definition modack_calls (items : list ModAckRequest.t) : list Call :=
  map send (modack_requests_for items).

Definition ack_calls (items : list AckRequest.t) : list Call :=
  map ack_histogram_add (times_to_ack items)
  ++ map send (ack_requests_for (map AckRequest.ack_id items))
  ++ drop_calls (map DropItem.of_ack items).

Definition nack_calls (items : list NackRequest.t) : list Call :=
  map send (modack_requests_for (nack_modacks items))
  ++ drop_calls (nack_drops items).

(** [calls_of xs] for a bucket that is not empty, nothing otherwise. *)
Definition if_nonempty {A : Type} (xs : list A) (calls_of : list A -> list Call)
  : list Call :=
  if nonempty xs then calls_of xs else [].

(** The calls of [dispatch_callback] on given buckets when the manager has
    its leaser: bucket after bucket. *)
Definition handle_calls (b : Dispatcher.Buckets) : list Call :=
  if_nonempty (Dispatcher.lease_requests b) lease_calls
  ++ if_nonempty (Dispatcher.modack_requests b) modack_calls
  ++ if_nonempty (Dispatcher.ack_requests b) ack_calls
  ++ if_nonempty (Dispatcher.nack_requests b) nack_calls
  ++ if_nonempty (Dispatcher.drop_requests b)
       (fun xs => drop_calls (map DropItem.of_drop xs)).

(** [issues m s]: the method [m] returns after issuing exactly the calls
    [s]; or, the manager having no leaser, it raises the assertion error
    after issuing a prefix of [s].  It touches nothing else. *)
Definition issues (m : M unit) (s : list Call) : Prop :=
  forall w : World,
    m w = (Returned tt, add_calls s w)
    \/ (leaser_present w = false
        /\ exists cs rest,
             m w = (Raised AssertionError, add_calls cs w) /\ s = cs ++ rest).

(** The calls that a method issues when run from [w]: what it adds to the
    log. *)
Definition issued {A : Type} (m : M A) (w : World) : list Call :=
  skipn (List.length (calls w)) (calls (exec m w)).

(** Sample values, used to run the methods on concrete inputs. *)
Module Sample.

(** A batch with an object that is no request item, and a drop request. *)
Definition a_drop : DropRequest.t := DropRequest.mk "d" 7 "k".
Definition foreign_then_drop : list QueueItem :=
  [foreign_object "<class 'int'>"; request_item (Drop a_drop)].

(** A message handle received at time 1/2. *)
Definition a_message : PubsubMessage.t :=
  PubsubMessage.mk "m1" [] "payload" 0 0 "k" 10.
Definition handle : Message.t :=
  Message.mk a_message "a" None "m1" (1 # 2) [] "payload"
             (datetime.of_microseconds 0) "k" 10.

(** A world whose manager has its leaser; nothing has happened yet. *)
Definition world : World := mkWorld true [] [] [] None [] 0.

(** A conversion to run the constructor with: the microsecond nearest to
    the timestamp for the years 1 to 9999, a [ValueError] outside them. *)
Definition fromtimestamp (timestamp : Q) : Outcome datetime.t :=
  let us := Float.rne (timestamp * inject_Z 1000000) in
  if ((-62135596800000000 <=? us) && (us <=? 253402300799999999))%Z
  then Returned (datetime.of_microseconds us)
  else Raised (ValueError "year is out of range").

(** The first second of the year 10000. *)
Definition too_late : PubsubMessage.t :=
  PubsubMessage.mk "m2" [] "payload" 253402300800 0 "k" 10.

Definition a_lease : LeaseRequest.t := LeaseRequest.mk "a" 10 EmptyString.
Definition an_ack : AckRequest.t := AckRequest.mk "a" 10 (Some 3%Z) EmptyString.

(** The ack request comes first in the batch, the lease request second. *)
Definition ack_then_lease : list QueueItem :=
  [request_item (Ack an_ack); request_item (Lease a_lease)].

(** 5001 ack requests. *)
Definition many_acks : list AckRequest.t := repeat an_ack (Z.to_nat 5001).

(** Two drop requests with the same ordering key, one with none. *)
Definition drops_sharing_a_key : list DropItem.t :=
  [DropItem.of_drop (DropRequest.mk "a" 1 "k");
   DropItem.of_drop (DropRequest.mk "b" 1 "k");
   DropItem.of_drop (DropRequest.mk "c" 1 EmptyString)].

End Sample.

(** [nack] as the specification words it: [modify_ack_deadline] on one
    [ModAckRequest(ack_id, 0)] for each item, in input order, followed by
    [drop] on drop requests carrying each item's ack id, byte size and
    ordering key. *)
Definition nack_as_specified (items : list NackRequest.t) : M unit :=
  Dispatcher.modify_ack_deadline (nack_modacks items) ;;
  Dispatcher.drop (nack_drops items).


(** The operations of a message handle, and their histories. *)
Module Handle.

Inductive Operation : Type :=
| op_ack
| op_nack
| op_modify_ack_deadline (seconds : Z)
| op_drop.

Definition perform (op : Operation) : Message.method :=
  match op with
  | op_ack => Message.ack
  | op_nack => Message.nack
  | op_modify_ack_deadline seconds => Message.modify_ack_deadline seconds
  | op_drop => Message.drop
  end.

(** A history: operations called one after the other on the same handle,
    each with the reading of the clock at its call. *)
Fixpoint perform_all (history : list (Q * Operation)) (self : Message.t)
         (w : World) : Outcome unit * (Message.t * World) :=
  match history with
  | [] => (Returned tt, (self, w))
  | (t, op) :: history' =>
      match perform op self (set_now t w) with
      | (Returned _, (self', w')) => perform_all history' self' w'
      | (Raised e, after) => (Raised e, after)
      end
  end.

(** The record that belongs to an operation called at clock reading [t]. *)
Definition request_of (op : Operation) (self : Message.t) (t : Q)
  : RequestItem :=
  match op with
  | op_ack =>
      Ack (AckRequest.mk
             (Message.ack_id self) (Message.size self)
             (Some (Float.ceil
                      (Float.sub t (Message._received_timestamp self))))
             (Message.ordering_key self))
  | op_nack =>
      Nack (NackRequest.mk (Message.ack_id self) (Message.size self)
                           (Message.ordering_key self))
  | op_modify_ack_deadline seconds =>
      ModAck (ModAckRequest.mk (Message.ack_id self) seconds)
  | op_drop =>
      Drop (DropRequest.mk (Message.ack_id self) (Message.size self)
                           (Message.ordering_key self))
  end.

(** The attributes of a request item; [None] where the named tuple has no
    such field. *)
Definition ack_id_of (r : RequestItem) : string :=
  match r with
  | Lease x => LeaseRequest.ack_id x
  | ModAck x => ModAckRequest.ack_id x
  | Ack x => AckRequest.ack_id x
  | Nack x => NackRequest.ack_id x
  | Drop x => DropRequest.ack_id x
  end.

Definition byte_size_of (r : RequestItem) : option Z :=
  match r with
  | Lease x => Some (LeaseRequest.byte_size x)
  | ModAck _ => None
  | Ack x => Some (AckRequest.byte_size x)
  | Nack x => Some (NackRequest.byte_size x)
  | Drop x => Some (DropRequest.byte_size x)
  end.

Definition ordering_key_of (r : RequestItem) : option string :=
  match r with
  | Lease x => Some (LeaseRequest.ordering_key x)
  | ModAck _ => None
  | Ack x => Some (AckRequest.ordering_key x)
  | Nack x => Some (NackRequest.ordering_key x)
  | Drop x => Some (DropRequest.ordering_key x)
  end.

(** The queue entries of a history. *)
Definition entries_of (history : list (Q * Operation)) (self : Message.t)
  : list QueueEntry :=
  map (fun '(t, op) => entry (request_item (request_of op self t))) history.

End Handle.

(** Kinds of calls, by the handler that can issue them. *)
Module CallKind.

(** A leaser call is given at least one item. *)
Definition has_items (c : Call) : Prop :=
  match c with
  | leaser_add [] | leaser_remove [] => False
  | _ => True
  end.

(** Not a call of [lease]. *)
Definition not_of_lease (c : Call) : Prop :=
  match c with
  | leaser_add _ | maybe_pause_consumer => False
  | _ => True
  end.

(** Not a call that only [ack] issues: no histogram sample, no request
    that acknowledges. *)
Definition not_of_ack (c : Call) : Prop :=
  match c with
  | ack_histogram_add _ => False
  | send r => StreamingPullRequest.ack_ids r = []
  | _ => True
  end.

(** Not a request that modifies deadlines, which only
    [modify_ack_deadline] and [nack] send. *)
Definition not_of_modack (c : Call) : Prop :=
  match c with
  | send r =>
      StreamingPullRequest.modify_deadline_ack_ids r = []
      /\ StreamingPullRequest.modify_deadline_seconds r = []
  | _ => True
  end.

(** Not a call of the drop handling, which [ack], [nack] and [drop] do. *)
Definition not_of_drop (c : Call) : Prop :=
  match c with
  | leaser_remove _ | activate_ordering_keys _ | maybe_resume_consumer => False
  | _ => True
  end.

End CallKind.

(** ** [message.py]: the text of a message *)

(** Python strings.  A [str] is the sequence of its code points, here
    below 256 (the texts of [__repr__] are ASCII: [json.dumps] escapes what
    is not); a [bytes] is the sequence of its bytes. *)
Module Text.

Definition newline_char : ascii := ascii_of_nat 10.
Definition newline : string := String newline_char EmptyString.

(** [c == "\n"] *)
Definition is_newline (c : ascii) : bool := Ascii.eqb c newline_char.

(** [s.split("\n")]: the pieces between the newlines; one piece, empty,
    for the empty string. *)
Fixpoint split_newline (s : string) : list string :=
  match s with
  | EmptyString => [EmptyString]
  | String c s' =>
      if is_newline c then EmptyString :: split_newline s'
      else match split_newline s' with
           | line :: lines => String c line :: lines
           | [] => [String c EmptyString]
           end
  end.

(** [sep.join(pieces)] *)
Definition join (sep : string) (pieces : list string) : string :=
  String.concat sep pieces.

(** [c.isspace()] for a code point below 256: the characters 9 to 13, 28
    to 32, 133 and 160. *)
Definition isspace (c : ascii) : bool :=
  let n := nat_of_ascii c in
  ((9 <=? n) && (n <=? 13)) || ((28 <=? n) && (n <=? 32))
  || (n =? 133) || (n =? 160).

(** [s.lstrip()] *)
Fixpoint lstrip (s : string) : string :=
  match s with
  | EmptyString => EmptyString
  | String c s' => if isspace c then lstrip s' else s
  end.

(** The number of newlines in [s]. *)
Fixpoint count_newlines (s : string) : nat :=
  match s with
  | EmptyString => 0
  | String c s' => (if is_newline c then 1 else 0) + count_newlines s'
  end.

(** No newline in [s]. *)
Fixpoint newline_free (s : string) : bool :=
  match s with
  | EmptyString => true
  | String c s' => negb (is_newline c) && newline_free s'
  end.

End Text.

(** The module-level function of [message.py], and [Message.__repr__]. *)
Module MessageText.

(** The default of the [prefix] argument of [_indent]: two spaces. *)
Definition default_prefix : string := "  ".

(** [_indent(lines, prefix)] *)
Definition _indent (lines : string) (prefix : string) : string :=
  let indented :=
    fold_left (fun indented line => indented ++ [(prefix ++ line)%string])
              (Text.split_newline lines) [] in
  Text.join Text.newline indented.

(** [_MESSAGE_REPR.format(a, b, c)], the conversions [!r] already applied
    to [a] and [b]; the doubled braces of the format are single braces. *)
Definition _MESSAGE_REPR_format (data_repr ordering_key_repr attributes : string)
  : string :=
  ("Message {" ++ Text.newline
   ++ "  data: " ++ data_repr ++ Text.newline
   ++ "  ordering_key: " ++ ordering_key_repr ++ Text.newline
   ++ "  attributes: " ++ attributes ++ Text.newline
   ++ "}")%string.

(** The property [Message.attributes]. *)
Definition attributes (self : Message.t) : list (string * string) :=
  Message._attributes self.

(** The first lines of [__repr__]: the data, cut after 50 bytes. *)
Definition abbreviated_data (data : string) : string :=
  if 50 <? String.length data then (substring 0 50 data ++ "...")%string
  else data.

Section Repr.

(** Python's own functions are parameters: [repr] of a [bytes] and of a
    [str], and [json.dumps(d, indent=2, separators=(",", ": "),
    sort_keys=True)] of the dictionary of the attributes. *)
Variable repr_bytes : string -> string.
Variable repr_str : string -> string.
Variable json_dumps : list (string * string) -> string.

(** [Message.__repr__] *)
Definition __repr__ (self : Message.t) : string :=
  let abbv_data := abbreviated_data (PubsubMessage.data (Message._message self)) in
  let pretty_attrs := json_dumps (attributes self) in
  let pretty_attrs := _indent pretty_attrs default_prefix in
  let pretty_attrs := Text.lstrip pretty_attrs in
  _MESSAGE_REPR_format (repr_bytes abbv_data)
                       (repr_str (Message.ordering_key self))
                       pretty_attrs.

End Repr.

(** The handle [self] with other data in its message. *)
Definition with_data (data : string) (self : Message.t) : Message.t :=
  let m := Message._message self in
  Message.mk
    (PubsubMessage.mk (PubsubMessage.message_id m) (PubsubMessage.attributes m)
                      data (PubsubMessage.publish_time_seconds m)
                      (PubsubMessage.publish_time_nanos m)
                      (PubsubMessage.ordering_key m) (PubsubMessage.ByteSize m))
    (Message._ack_id self) (Message._delivery_attempt self)
    (Message.message_id self) (Message._received_timestamp self)
    (Message._attributes self) (Message._data self)
    (Message._publish_time self) (Message._ordering_key self)
    (Message._size self).

End MessageText.

(** What a call log shows of the leaser, and the variants of items. *)
Module Observed.

(** The items given to [leaser.add], call after call. *)
Definition added (cs : list Call) : list LeaseRequest.t :=
  flat_map (fun c => match c with leaser_add items => items | _ => [] end) cs.

(** The items given to [leaser.remove], call after call. *)
Definition removed (cs : list Call) : list DropItem.t :=
  flat_map (fun c => match c with leaser_remove items => items | _ => [] end) cs.

(** The values given to [ack_histogram.add], call after call. *)
Definition recorded (cs : list Call) : list Z :=
  flat_map (fun c => match c with ack_histogram_add t => [t] | _ => [] end) cs.

(** The ack ids that a list of requests acknowledges. *)
Definition acknowledged (requests : list StreamingPullRequest.t) : list string :=
  List.concat (map StreamingPullRequest.ack_ids requests).

(** The deadline changes of a list of requests: ack id and seconds. *)
Definition deadlines (requests : list StreamingPullRequest.t)
  : list (string * Z) :=
  List.concat
    (map (fun r =>
            combine (StreamingPullRequest.modify_deadline_ack_ids r)
                    (StreamingPullRequest.modify_deadline_seconds r))
         requests).

(** The class that the [isinstance] chain of [dispatch_callback] finds for
    an item; [None] for an object of no request class. *)
Inductive Variant : Type :=
| lease_variant | modack_variant | ack_variant | nack_variant | drop_variant.

Definition variant_of (x : QueueItem) : option Variant :=
  match x with
  | request_item (Lease _) => Some lease_variant
  | request_item (ModAck _) => Some modack_variant
  | request_item (Ack _) => Some ack_variant
  | request_item (Nack _) => Some nack_variant
  | request_item (Drop _) => Some drop_variant
  | foreign_object _ => None
  end.

End Observed.

(** More sample values. *)
Module Specimen.

(** A text of three lines, the second one empty. *)
Definition three_lines : string :=
  ("{" ++ Text.newline ++ Text.newline ++ "}")%string.

(** Stand-ins for Python's [repr] and [json.dumps], to run [__repr__]. *)
Definition quoted (s : string) : string := (dquote ++ s ++ dquote)%string.
Definition braces (attributes : list (string * string)) : string := three_lines.

(** A handle whose message carries 60 bytes of data. *)
Definition sixty_bytes : string :=
  "012345678901234567890123456789012345678901234567890123456789".
Definition long_handle : Message.t :=
  MessageText.with_data sixty_bytes Sample.handle.

(** The largest double below 1, written [0.9999999999999999], and a handle
    received at that clock reading. *)
Definition just_below_one : Q := (1 - Float.exp2 (-53))%Q.
Definition early_handle : Message.t :=
  Message.mk Sample.a_message "a" None "m1" just_below_one [] "payload"
             (datetime.of_microseconds 0) "k" 10.

End Specimen.

(** * Properties *)

(** ** The world and the monad *)

Lemma add_calls_nil (w : World) : add_calls [] w = w.
Proof.
  destruct w; unfold add_calls; simpl. now rewrite app_nil_r.
Qed.

Lemma add_calls_app (cs1 cs2 : list Call) (w : World) :
  add_calls cs2 (add_calls cs1 w) = add_calls (cs1 ++ cs2) w.
Proof.
  unfold add_calls; simpl. now rewrite app_assoc.
Qed.

Lemma add_call_add_calls (c : Call) (w : World) : add_call c w = add_calls [c] w.
Proof. reflexivity. Qed.

Lemma add_warnings_nil (w : World) : add_warnings [] w = w.
Proof.
  destruct w; unfold add_warnings; simpl. now rewrite app_nil_r.
Qed.

Lemma add_warning_add_warnings (msg : string) (msgs : list string) (w : World) :
  add_warnings msgs (add_warning msg w) = add_warnings (msg :: msgs) w.
Proof.
  unfold add_warnings, add_warning; simpl. now rewrite <- app_assoc.
Qed.

Lemma bind_run {A B : Type} (m : M A) (k : A -> M B) (w w' : World) (a : A) :
  m w = (Returned a, w') -> bind m k w = k a w'.
Proof. intros H. unfold bind. now rewrite H. Qed.

Lemma bind_raised {A B : Type} (m : M A) (k : A -> M B) (w w' : World) (e : Exn) :
  m w = (Raised e, w') -> bind m k w = (Raised e, w').
Proof. intros H. unfold bind. now rewrite H. Qed.

Lemma call_run (c : Call) (w : World) : call c w = (Returned tt, add_calls [c] w).
Proof. reflexivity. Qed.

(** ** Cutting a list into chunks *)

Section Chunks.

Context {A : Type}.
Implicit Types (l : list A) (size total : nat).

Lemma firstn_plus size k l :
  firstn (size + k) l = firstn size l ++ firstn k (skipn size l).
Proof.
  rewrite firstn_skipn_comm.
  rewrite <- (firstn_skipn size (firstn (size + k) l)) at 1.
  rewrite firstn_firstn, Nat.min_l by lia. reflexivity.
Qed.

Lemma chunked_length size total l :
  List.length (chunked size total l) = total.
Proof.
  revert l. induction total as [|total IH]; intros l; simpl.
  - reflexivity.
  - now rewrite IH.
Qed.

(** The chunks, put end to end, are a prefix of the list. *)
Lemma chunked_concat size total l :
  List.concat (chunked size total l) = firstn (total * size) l.
Proof.
  revert l. induction total as [|total IH]; intros l.
  - reflexivity.
  - change (List.concat (chunked size (S total) l))
      with (firstn size l ++ List.concat (chunked size total (skipn size l))).
    rewrite IH.
    replace (S total * size) with (size + total * size) by lia.
    now rewrite firstn_plus.
Qed.

(** Enough chunks lose nothing. *)
Lemma chunked_concat_all size total l :
  List.length l <= total * size -> List.concat (chunked size total l) = l.
Proof.
  intros H. rewrite chunked_concat. now apply firstn_all2.
Qed.

Lemma chunked_bounded size total l :
  Forall (fun c => List.length c <= size) (chunked size total l).
Proof.
  revert l. induction total as [|total IH]; intros l; simpl.
  - constructor.
  - constructor; [| apply IH].
    rewrite length_firstn. apply Nat.le_min_l.
Qed.

(** The length of each chunk, in order. *)
Lemma chunked_sizes size total l :
  map (@List.length A) (chunked size total l) =
  map (fun i => Nat.min size (List.length l - i * size)) (seq 0 total).
Proof.
  revert l. induction total as [|total IH]; intros l.
  - reflexivity.
  - change (chunked size (S total) l)
      with (firstn size l :: chunked size total (skipn size l)).
    rewrite <- cons_seq, <- seq_shift, map_cons, map_cons, map_map.
    rewrite IH, length_firstn, length_skipn.
    f_equal; [f_equal; lia |].
    apply map_ext. intros i. f_equal. lia.
Qed.

End Chunks.

(** [total_chunks] is the rounded-up quotient by the cap. *)
Lemma total_chunks_ceiling (n : nat) :
  n <= Dispatcher.total_chunks n * Dispatcher._ACK_IDS_BATCH_SIZE
    < n + Dispatcher._ACK_IDS_BATCH_SIZE.
Proof.
  unfold Dispatcher.total_chunks, Qceiling, Qfloor, Qopp.
  change (Qnum (Z.of_nat n # Pos.of_nat Dispatcher._ACK_IDS_BATCH_SIZE))
    with (Z.of_nat n).
  change (Z.pos (Qden (Z.of_nat n # Pos.of_nat Dispatcher._ACK_IDS_BATCH_SIZE)))
    with 2500%Z.
  assert (E : Z.of_nat Dispatcher._ACK_IDS_BATCH_SIZE = 2500%Z) by reflexivity.
  generalize dependent Dispatcher._ACK_IDS_BATCH_SIZE. intros c E.
  pose proof (Z.div_mod (- Z.of_nat n) 2500 ltac:(lia)) as D.
  pose proof (Z.mod_pos_bound (- Z.of_nat n) 2500 ltac:(lia)) as Bd.
  set (q := (- Z.of_nat n / 2500)%Z) in *.
  set (r := (- Z.of_nat n mod 2500)%Z) in *.
  assert (q <= 0)%Z by lia.
  split.
  - apply Nat2Z.inj_le. rewrite Nat2Z.inj_mul, Z2Nat.id by lia. lia.
  - apply Nat2Z.inj_lt. rewrite Nat2Z.inj_mul, Nat2Z.inj_add, Z2Nat.id by lia. lia.
Qed.

(** ** What each handler does to the world *)

Lemma drop_run (items : list DropItem.t) (w : World) :
  Dispatcher.drop items w =
    if leaser_present w
    then (Returned tt, add_calls (drop_calls items) w)
    else (Raised AssertionError, w).
Proof.
  unfold Dispatcher.drop, bind, gets, assert_, call, modify, ret, raise.
  destruct (leaser_present w); simpl; [| reflexivity].
  now rewrite !add_call_add_calls, !add_calls_app.
Qed.

Lemma lease_run (items : list LeaseRequest.t) (w : World) :
  Dispatcher.lease items w =
    if leaser_present w
    then (Returned tt, add_calls [leaser_add items; maybe_pause_consumer] w)
    else (Raised AssertionError, w).
Proof.
  unfold Dispatcher.lease, bind, gets, assert_, call, modify, ret, raise.
  destruct (leaser_present w); simpl; [| reflexivity].
  now rewrite !add_call_add_calls, !add_calls_app.
Qed.

Lemma histogram_loop_run (items : list AckRequest.t) (w : World) :
  for_each
    (fun item =>
       match AckRequest.time_to_ack item with
       | Some time_to_ack => call (ack_histogram_add time_to_ack)
       | None => ret tt
       end) items w
  = (Returned tt, add_calls (map ack_histogram_add (times_to_ack items)) w).
Proof.
  revert w. induction items as [|i items IH]; intros w.
  - simpl. now rewrite add_calls_nil.
  - unfold times_to_ack. simpl. fold (times_to_ack items).
    destruct (AckRequest.time_to_ack i) as [t|].
    + rewrite (bind_run _ _ _ _ _ (call_run _ w)), IH, add_calls_app.
      reflexivity.
    + unfold bind, ret. now rewrite IH.
Qed.

Lemma ack_chunks_run (total : nat) (ack_ids : list string) (w : World) :
  Dispatcher.ack_chunks total ack_ids w =
    (Returned tt,
     add_calls
       (map send
          (map (fun chunk => StreamingPullRequest.mk chunk [] [])
               (chunked Dispatcher._ACK_IDS_BATCH_SIZE total ack_ids))) w).
Proof.
  revert ack_ids w. induction total as [|total IH]; intros ack_ids w.
  - simpl. now rewrite add_calls_nil.
  - change (Dispatcher.ack_chunks (S total) ack_ids)
      with (call (send (StreamingPullRequest.mk
                          (firstn Dispatcher._ACK_IDS_BATCH_SIZE ack_ids) [] [])) ;;
            Dispatcher.ack_chunks total
              (skipn Dispatcher._ACK_IDS_BATCH_SIZE ack_ids)).
    rewrite (bind_run _ _ _ _ _ (call_run _ w)), IH, add_calls_app.
    reflexivity.
Qed.

Lemma modack_chunks_run (total : nat) (items : list ModAckRequest.t) (w : World) :
  Dispatcher.modack_chunks total (map ModAckRequest.ack_id items)
                           (map ModAckRequest.seconds items) w =
    (Returned tt,
     add_calls
       (map send
          (map (fun chunk =>
                  StreamingPullRequest.mk [] (map ModAckRequest.ack_id chunk)
                                          (map ModAckRequest.seconds chunk))
               (chunked Dispatcher._ACK_IDS_BATCH_SIZE total items))) w).
Proof.
  revert items w. induction total as [|total IH]; intros items w.
  - simpl. now rewrite add_calls_nil.
  - change (Dispatcher.modack_chunks (S total) (map ModAckRequest.ack_id items)
                                     (map ModAckRequest.seconds items))
      with (call (send (StreamingPullRequest.mk []
                          (firstn Dispatcher._ACK_IDS_BATCH_SIZE
                                  (map ModAckRequest.ack_id items))
                          (firstn Dispatcher._ACK_IDS_BATCH_SIZE
                                  (map ModAckRequest.seconds items)))) ;;
            Dispatcher.modack_chunks total
              (skipn Dispatcher._ACK_IDS_BATCH_SIZE (map ModAckRequest.ack_id items))
              (skipn Dispatcher._ACK_IDS_BATCH_SIZE (map ModAckRequest.seconds items))).
    rewrite (bind_run _ _ _ _ _ (call_run _ w)).
    rewrite !skipn_map, IH, add_calls_app, !firstn_map.
    reflexivity.
Qed.

Lemma modify_ack_deadline_run (items : list ModAckRequest.t) (w : World) :
  Dispatcher.modify_ack_deadline items w =
    (Returned tt, add_calls (map send (modack_requests_for items)) w).
Proof.
  unfold Dispatcher.modify_ack_deadline. apply modack_chunks_run.
Qed.

Lemma ack_run (items : list AckRequest.t) (w : World) :
  Dispatcher.ack items w =
    let before_drop :=
      map ack_histogram_add (times_to_ack items)
      ++ map send (ack_requests_for (map AckRequest.ack_id items)) in
    if leaser_present w
    then (Returned tt,
          add_calls (before_drop ++ drop_calls (map DropItem.of_ack items)) w)
    else (Raised AssertionError, add_calls before_drop w).
Proof.
  unfold Dispatcher.ack.
  rewrite (bind_run _ _ _ _ _ (histogram_loop_run items w)).
  rewrite (bind_run _ _ _ _ _ (ack_chunks_run _ _ _)).
  rewrite drop_run, !add_calls_app.
  unfold ack_requests_for. rewrite length_map.
  change (leaser_present (add_calls _ w)) with (leaser_present w).
  destruct (leaser_present w); reflexivity.
Qed.

Lemma nack_run (items : list NackRequest.t) (w : World) :
  Dispatcher.nack items w =
    let sends := map send (modack_requests_for (nack_modacks items)) in
    if leaser_present w
    then (Returned tt, add_calls (sends ++ drop_calls (nack_drops items)) w)
    else (Raised AssertionError, add_calls sends w).
Proof.
  unfold Dispatcher.nack.
  rewrite (bind_run _ _ _ _ _ (modify_ack_deadline_run _ w)).
  rewrite drop_run, add_calls_app.
  change (leaser_present (add_calls _ w)) with (leaser_present w).
  destruct (leaser_present w); reflexivity.
Qed.

(** ** Sequencing handlers *)

Lemma issues_present (m : M unit) (s : list Call) (w : World) :
  issues m s -> leaser_present w = true -> m w = (Returned tt, add_calls s w).
Proof.
  intros H P. destruct (H w) as [R | [A _]]; [exact R | congruence].
Qed.

(** Whatever the outcome, the calls issued are a prefix of [s]. *)
Lemma issues_prefix (m : M unit) (s : list Call) (w : World) :
  issues m s -> exists cs rest, exec m w = add_calls cs w /\ s = cs ++ rest.
Proof.
  intros H. unfold exec. destruct (H w) as [R | [_ (cs & rest & R & E)]].
  - exists s, []. rewrite R, app_nil_r. now split.
  - exists cs, rest. rewrite R. now split.
Qed.

Lemma issues_ret : issues (ret tt) [].
Proof. intros w. left. unfold ret. now rewrite add_calls_nil. Qed.

Lemma issues_bind (m1 m2 : M unit) (s1 s2 : list Call) :
  issues m1 s1 -> issues m2 s2 -> issues (m1 ;; m2) (s1 ++ s2).
Proof.
  intros H1 H2 w.
  destruct (H1 w) as [R1 | [A1 (cs & rest & R1 & E1)]].
  - rewrite (bind_run _ _ _ _ _ R1).
    destruct (H2 (add_calls s1 w)) as [R2 | [A2 (cs & rest & R2 & E2)]].
    + left. now rewrite R2, add_calls_app.
    + right. split; [exact A2 |].
      exists (s1 ++ cs), rest. rewrite R2, add_calls_app, E2, app_assoc.
      now split.
  - right. split; [exact A1 |].
    exists cs, (rest ++ s2). rewrite (bind_raised _ _ _ _ _ R1), E1, app_assoc.
    now split.
Qed.

Lemma issues_when_nonempty {A : Type} (xs : list A) (handler : list A -> M unit)
      (calls_of : list A -> list Call) :
  issues (handler xs) (calls_of xs) ->
  issues (Dispatcher.when_nonempty xs handler) (if_nonempty xs calls_of).
Proof.
  intros H. unfold Dispatcher.when_nonempty, if_nonempty.
  destruct (nonempty xs); [exact H | apply issues_ret].
Qed.

Lemma issues_lease (items : list LeaseRequest.t) :
  issues (Dispatcher.lease items) (lease_calls items).
Proof.
  intros w. rewrite lease_run. destruct (leaser_present w) eqn:P.
  - now left.
  - right. split; [reflexivity |].
    exists [], (lease_calls items). now rewrite add_calls_nil.
Qed.

Lemma issues_drop (items : list DropItem.t) :
  issues (Dispatcher.drop items) (drop_calls items).
Proof.
  intros w. rewrite drop_run. destruct (leaser_present w) eqn:P.
  - now left.
  - right. split; [reflexivity |].
    exists [], (drop_calls items). now rewrite add_calls_nil.
Qed.

Lemma issues_modify_ack_deadline (items : list ModAckRequest.t) :
  issues (Dispatcher.modify_ack_deadline items) (modack_calls items).
Proof. intros w. left. apply modify_ack_deadline_run. Qed.

Lemma issues_ack (items : list AckRequest.t) :
  issues (Dispatcher.ack items) (ack_calls items).
Proof.
  intros w. rewrite ack_run. cbv zeta. unfold ack_calls.
  destruct (leaser_present w) eqn:P.
  - left. now rewrite app_assoc.
  - right. split; [reflexivity |].
    eexists _, (drop_calls (map DropItem.of_ack items)).
    split; [reflexivity | now rewrite app_assoc].
Qed.

Lemma issues_nack (items : list NackRequest.t) :
  issues (Dispatcher.nack items) (nack_calls items).
Proof.
  intros w. rewrite nack_run. cbv zeta. unfold nack_calls.
  destruct (leaser_present w) eqn:P.
  - now left.
  - right. split; [reflexivity |].
    eexists _, (drop_calls (nack_drops items)). now split.
Qed.

Lemma issues_handle_buckets (b : Dispatcher.Buckets) :
  issues (handle_buckets b) (handle_calls b).
Proof.
  unfold handle_buckets, handle_calls.
  repeat apply issues_bind; apply issues_when_nonempty.
  - apply issues_lease.
  - apply issues_modify_ack_deadline.
  - apply issues_ack.
  - apply issues_nack.
  - apply issues_drop.
Qed.

(** ** The classification loop *)

Lemma classify_all_run (items : list QueueItem) (b : Dispatcher.Buckets)
      (w : World) :
  Dispatcher.classify_all b items w =
    (Returned (append_buckets b (Batch.buckets items)),
     add_warnings (Batch.warnings items) w).
Proof.
  revert b w. induction items as [|x items IH]; intros b w.
  - destruct b. unfold append_buckets, Batch.buckets, Batch.warnings; simpl.
    now rewrite !app_nil_r, add_warnings_nil.
  - destruct x as [[r|r|r|r|r] | ty]; simpl; unfold bind, ret, modify;
      rewrite IH; unfold append_buckets; simpl;
      rewrite <- ?app_assoc; try reflexivity.
    unfold Batch.warnings; simpl. now rewrite add_warning_add_warnings.
Qed.

Lemma dispatch_callback_run (items : list QueueItem) (w : World) :
  Dispatcher.dispatch_callback items w =
    handle_buckets (Batch.buckets items) (add_warnings (Batch.warnings items) w).
Proof.
  unfold Dispatcher.dispatch_callback.
  rewrite (bind_run _ _ _ _ _ (classify_all_run items Dispatcher.no_requests w)).
  reflexivity.
Qed.

Lemma issued_add_calls {A : Type} (m : M A) (w : World) (cs : list Call)
      (msgs : list string) :
  exec m w = add_warnings msgs (add_calls cs w) -> issued m w = cs.
Proof.
  intros E. unfold issued. rewrite E. simpl.
  rewrite skipn_app, skipn_all, Nat.sub_diag. reflexivity.
Qed.

Lemma log_grows {A : Type} (m : M A) (w : World) (cs : list Call)
      (msgs : list string) :
  exec m w = add_warnings msgs (add_calls cs w) ->
  calls (exec m w) = calls w ++ issued m w.
Proof.
  intros E. rewrite (issued_add_calls _ _ _ _ E), E. reflexivity.
Qed.


(** The calls of a dispatch are a prefix of the calls of its buckets. *)
Lemma dispatch_callback_prefix (items : list QueueItem) (w : World) :
  exists cs rest,
    exec (Dispatcher.dispatch_callback items) w =
      add_warnings (Batch.warnings items) (add_calls cs w)
    /\ handle_calls (Batch.buckets items) = cs ++ rest.
Proof.
  destruct (issues_prefix _ _ (add_warnings (Batch.warnings items) w)
                          (issues_handle_buckets (Batch.buckets items)))
    as (cs & rest & E & S).
  exists cs, rest. split; [| exact S].
  unfold exec in *. now rewrite dispatch_callback_run, E.
Qed.

Lemma dispatch_callback_present (items : list QueueItem) (w : World) :
  leaser_present w = true ->
  Dispatcher.dispatch_callback items w =
    (Returned tt,
     add_warnings (Batch.warnings items)
                  (add_calls (handle_calls (Batch.buckets items)) w)).
Proof.
  intros P. rewrite dispatch_callback_run.
  now rewrite (issues_present _ _ _ (issues_handle_buckets _)).
Qed.

Lemma issued_present (items : list QueueItem) (w : World) :
  leaser_present w = true ->
  issued (Dispatcher.dispatch_callback items) w
  = handle_calls (Batch.buckets items).
Proof.
  intros P. apply (issued_add_calls _ _ _ (Batch.warnings items)).
  unfold exec. now rewrite dispatch_callback_present.
Qed.

(** ** The buckets of a batch *)

Lemma leases_select (items : list QueueItem) :
  map (fun r => request_item (Lease r)) (Batch.leases items)
  = filter Batch.is_lease items.
Proof.
  induction items as [|[[r|r|r|r|r] | ty] items IH]; simpl;
    rewrite <- ?IH; reflexivity.
Qed.

Lemma modacks_select (items : list QueueItem) :
  map (fun r => request_item (ModAck r)) (Batch.modacks items)
  = filter Batch.is_modack items.
Proof.
  induction items as [|[[r|r|r|r|r] | ty] items IH]; simpl;
    rewrite <- ?IH; reflexivity.
Qed.

Lemma acks_select (items : list QueueItem) :
  map (fun r => request_item (Ack r)) (Batch.acks items)
  = filter Batch.is_ack items.
Proof.
  induction items as [|[[r|r|r|r|r] | ty] items IH]; simpl;
    rewrite <- ?IH; reflexivity.
Qed.

Lemma nacks_select (items : list QueueItem) :
  map (fun r => request_item (Nack r)) (Batch.nacks items)
  = filter Batch.is_nack items.
Proof.
  induction items as [|[[r|r|r|r|r] | ty] items IH]; simpl;
    rewrite <- ?IH; reflexivity.
Qed.

Lemma drops_select (items : list QueueItem) :
  map (fun r => request_item (Drop r)) (Batch.drops items)
  = filter Batch.is_drop items.
Proof.
  induction items as [|[[r|r|r|r|r] | ty] items IH]; simpl;
    rewrite <- ?IH; reflexivity.
Qed.




(** ** Batches are handled bucket by bucket *)



(** ** Chunked requests *)

Lemma issued_calls {A : Type} (m : M A) (w : World) (cs : list Call) :
  exec m w = add_calls cs w -> issued m w = cs.
Proof.
  intros E. apply (issued_add_calls m w cs []). now rewrite add_warnings_nil.
Qed.

Lemma sent_app (cs1 cs2 : list Call) : sent (cs1 ++ cs2) = sent cs1 ++ sent cs2.
Proof. apply flat_map_app. Qed.

Lemma sent_send (rs : list StreamingPullRequest.t) : sent (map send rs) = rs.
Proof.
  induction rs as [|r rs IH]; simpl; [reflexivity | now rewrite IH].
Qed.

Lemma sent_histogram (ts : list Z) : sent (map ack_histogram_add ts) = [].
Proof. induction ts as [|t ts IH]; simpl; [reflexivity | exact IH]. Qed.

Lemma ack_sends (items : list AckRequest.t) (w : World) :
  sent (issued (Dispatcher.ack items) w)
  = ack_requests_for (map AckRequest.ack_id items).
Proof.
  pose proof (ack_run items w) as R. cbv zeta in R.
  destruct (leaser_present w);
    rewrite (issued_calls _ _ _ (f_equal snd R));
    rewrite !sent_app, sent_histogram, sent_send; simpl;
    now rewrite ?app_nil_r.
Qed.

Lemma modify_ack_deadline_issued (items : list ModAckRequest.t) (w : World) :
  issued (Dispatcher.modify_ack_deadline items) w
  = map send (modack_requests_for items).
Proof.
  apply issued_calls. unfold exec. now rewrite modify_ack_deadline_run.
Qed.

Lemma combine_map_both {A B C : Type} (f : A -> B) (g : A -> C) (l : list A) :
  combine (map f l) (map g l) = map (fun x => (f x, g x)) l.
Proof.
  induction l as [|x l IH]; simpl; [reflexivity | now rewrite IH].
Qed.

(** The number of chunks covers the list. *)
Lemma total_chunks_cover (n : nat) :
  n <= Dispatcher.total_chunks n * Dispatcher._ACK_IDS_BATCH_SIZE.
Proof. apply total_chunks_ceiling. Qed.

Lemma ack_requests_for_spec (ack_ids : list string) :
  let requests := ack_requests_for ack_ids in
  List.length ack_ids
    <= List.length requests * Dispatcher._ACK_IDS_BATCH_SIZE
    < List.length ack_ids + Dispatcher._ACK_IDS_BATCH_SIZE
  /\ Forall (fun r =>
               List.length (StreamingPullRequest.ack_ids r)
                 <= Dispatcher._ACK_IDS_BATCH_SIZE
               /\ StreamingPullRequest.modify_deadline_ack_ids r = []
               /\ StreamingPullRequest.modify_deadline_seconds r = [])
            requests
  /\ List.concat (map StreamingPullRequest.ack_ids requests) = ack_ids.
Proof.
  cbv zeta. unfold ack_requests_for. repeat split.
  - rewrite length_map, chunked_length. apply total_chunks_ceiling.
  - rewrite length_map, chunked_length. apply total_chunks_ceiling.
  - apply Forall_map.
    eapply Forall_impl; [| apply chunked_bounded].
    intros c Hc. simpl. now repeat split.
  - rewrite map_map. simpl. rewrite map_id.
    apply chunked_concat_all, total_chunks_cover.
Qed.

Lemma modack_requests_for_spec (items : list ModAckRequest.t) :
  let requests := modack_requests_for items in
  List.length items
    <= List.length requests * Dispatcher._ACK_IDS_BATCH_SIZE
    < List.length items + Dispatcher._ACK_IDS_BATCH_SIZE
  /\ Forall (fun r =>
               List.length (StreamingPullRequest.modify_deadline_ack_ids r)
                 <= Dispatcher._ACK_IDS_BATCH_SIZE
               /\ List.length (StreamingPullRequest.modify_deadline_seconds r)
                  = List.length (StreamingPullRequest.modify_deadline_ack_ids r)
               /\ StreamingPullRequest.ack_ids r = [])
            requests
  /\ List.concat
       (map (fun r =>
               combine (StreamingPullRequest.modify_deadline_ack_ids r)
                       (StreamingPullRequest.modify_deadline_seconds r))
            requests)
     = map (fun i => (ModAckRequest.ack_id i, ModAckRequest.seconds i)) items.
Proof.
  cbv zeta. unfold modack_requests_for. repeat split.
  - rewrite length_map, chunked_length. apply total_chunks_ceiling.
  - rewrite length_map, chunked_length. apply total_chunks_ceiling.
  - apply Forall_map.
    eapply Forall_impl; [| apply chunked_bounded].
    intros c Hc. simpl. rewrite !length_map. now repeat split.
  - rewrite map_map. simpl.
    rewrite (map_ext _ (map (fun i => (ModAckRequest.ack_id i,
                                       ModAckRequest.seconds i)))
                     (fun c => combine_map_both _ _ c)).
    rewrite <- concat_map.
    now rewrite chunked_concat_all by apply total_chunks_cover.
Qed.

(** 5001 ids go out as 2500, 2500 and 1. *)
Lemma ack_requests_for_5001 (ack_ids : list string) :
  Z.of_nat (List.length ack_ids) = 5001%Z ->
  map (fun r => Z.of_nat (List.length (StreamingPullRequest.ack_ids r)))
      (ack_requests_for ack_ids)
  = [2500; 2500; 1]%Z.
Proof.
  intros H. unfold ack_requests_for.
  assert (K : Dispatcher.total_chunks (List.length ack_ids) = 3).
  { replace (List.length ack_ids) with (Z.to_nat 5001) by lia.
    vm_compute. reflexivity. }
  rewrite K, map_map.
  change (fun x : list string =>
            Z.of_nat (List.length
                        (StreamingPullRequest.ack_ids
                           (StreamingPullRequest.mk x [] []))))
    with (fun x : list string => Z.of_nat (List.length x)).
  rewrite <- (map_map (@List.length string) Z.of_nat), chunked_sizes.
  assert (E : Z.of_nat Dispatcher._ACK_IDS_BATCH_SIZE = 2500%Z) by reflexivity.
  generalize dependent Dispatcher._ACK_IDS_BATCH_SIZE. intros c E.
  cbn [seq map]. repeat f_equal; lia.
Qed.

(** C2.  [ack] and [modify_ack_deadline] send their [N] items in
    [ceil(N / 2500)] requests (the number [k] of requests satisfies
    [N <= k * 2500 < N + 2500]), each request carrying at most 2500 ack ids
    (for [modify_ack_deadline], at most 2500 ack ids with as many seconds,
    paired by position) and nothing else; the requests put end to end carry
    the ack ids (the pairs of ack id and seconds) of the items, each once, in
    the order of the items.  5001 ack items go out in three requests with
    2500, 2500 and 1 ack ids. *)
Theorem ack_and_modify_ack_deadline_send_in_chunks :
  (forall (items : list AckRequest.t) (w : World),
      let requests := sent (issued (Dispatcher.ack items) w) in
      List.length items
        <= List.length requests * Dispatcher._ACK_IDS_BATCH_SIZE
        < List.length items + Dispatcher._ACK_IDS_BATCH_SIZE
      /\ Forall (fun r =>
                   List.length (StreamingPullRequest.ack_ids r)
                     <= Dispatcher._ACK_IDS_BATCH_SIZE
                   /\ StreamingPullRequest.modify_deadline_ack_ids r = []
                   /\ StreamingPullRequest.modify_deadline_seconds r = [])
                requests
      /\ List.concat (map StreamingPullRequest.ack_ids requests)
         = map AckRequest.ack_id items)
  /\ (forall (items : list ModAckRequest.t) (w : World),
      let requests := sent (issued (Dispatcher.modify_ack_deadline items) w) in
      issued (Dispatcher.modify_ack_deadline items) w = map send requests
      /\ List.length items
        <= List.length requests * Dispatcher._ACK_IDS_BATCH_SIZE
        < List.length items + Dispatcher._ACK_IDS_BATCH_SIZE
      /\ Forall (fun r =>
                   List.length (StreamingPullRequest.modify_deadline_ack_ids r)
                     <= Dispatcher._ACK_IDS_BATCH_SIZE
                   /\ List.length (StreamingPullRequest.modify_deadline_seconds r)
                      = List.length (StreamingPullRequest.modify_deadline_ack_ids r)
                   /\ StreamingPullRequest.ack_ids r = [])
                requests
      /\ List.concat
           (map (fun r =>
                   combine (StreamingPullRequest.modify_deadline_ack_ids r)
                           (StreamingPullRequest.modify_deadline_seconds r))
                requests)
         = map (fun i => (ModAckRequest.ack_id i, ModAckRequest.seconds i)) items)
  /\ (forall (items : list AckRequest.t) (w : World),
      Z.of_nat (List.length items) = 5001%Z ->
      map (fun r => Z.of_nat (List.length (StreamingPullRequest.ack_ids r)))
          (sent (issued (Dispatcher.ack items) w))
      = [2500; 2500; 1]%Z).
Proof.
  split; [| split].
  - intros items w. cbv zeta. rewrite ack_sends.
    pose proof (ack_requests_for_spec (map AckRequest.ack_id items)) as S.
    cbv zeta in S. now rewrite length_map in S.
  - intros items w. cbv zeta.
    rewrite modify_ack_deadline_issued, sent_send.
    split; [reflexivity | apply modack_requests_for_spec].
  - intros items w H. rewrite ack_sends.
    apply ack_requests_for_5001. now rewrite length_map.
Qed.

Lemma ack_and_modify_ack_deadline_send_in_chunks_witness :
  map (fun r => Z.of_nat (List.length (StreamingPullRequest.ack_ids r)))
      (sent (issued (Dispatcher.ack Sample.many_acks) Sample.world))
  = [2500; 2500; 1]%Z.
Proof.
  apply (proj2 (proj2 ack_and_modify_ack_deadline_send_in_chunks)).
  vm_compute. reflexivity.
Defined.

(** ** [nack] *)

Lemma drop_issued (items : list DropItem.t) (w : World) :
  issued (Dispatcher.drop items) w =
    if leaser_present w then drop_calls items else [].
Proof.
  pose proof (drop_run items w) as R.
  destruct (leaser_present w); apply issued_calls; unfold exec; rewrite R.
  - reflexivity.
  - simpl. now rewrite add_calls_nil.
Qed.

(** C3.  [nack(items)] does what [modify_ack_deadline] on one
    [ModAckRequest(ack_id, 0)] for each item, in input order, followed by
    [drop] on drop requests carrying each item's ack id, byte size and
    ordering key does: same outcome, same world; the calls it issues are the
    calls of that [modify_ack_deadline] followed by the calls of that
    [drop]. *)
Theorem nack_is_modack_zero_then_drop (items : list NackRequest.t) (w : World) :
  let modacks :=
    map (fun i => ModAckRequest.mk (NackRequest.ack_id i) 0) items in
  let drops :=
    map (fun i =>
           DropItem.of_drop
             (DropRequest.mk (NackRequest.ack_id i) (NackRequest.byte_size i)
                             (NackRequest.ordering_key i))) items in
  Dispatcher.nack items w = nack_as_specified items w
  /\ issued (Dispatcher.nack items) w
     = issued (Dispatcher.modify_ack_deadline modacks) w
       ++ issued (Dispatcher.drop drops)
                 (exec (Dispatcher.modify_ack_deadline modacks) w)
  /\ map DropItem.ack_id drops = map NackRequest.ack_id items
  /\ map DropItem.byte_size drops = map NackRequest.byte_size items
  /\ map DropItem.ordering_key drops = map NackRequest.ordering_key items.
Proof.
  cbv zeta. fold (nack_modacks items). fold (nack_drops items).
  split; [reflexivity |]. split.
  - rewrite modify_ack_deadline_issued, drop_issued.
    unfold exec. rewrite modify_ack_deadline_run.
    change (leaser_present (snd (_, add_calls _ w))) with (leaser_present w).
    pose proof (nack_run items w) as R. cbv zeta in R.
    destruct (leaser_present w);
      rewrite (issued_calls _ _ _ (f_equal snd R)); now rewrite ?app_nil_r.
  - unfold nack_drops. rewrite !map_map. now repeat split.
Qed.

(** ** [drop] *)

Lemma truthy_nonempty (s : string) : truthy s = true <-> s <> EmptyString.
Proof.
  destruct s; simpl; split; intros H; try congruence; try reflexivity.
Qed.

(** C4, as the code has it.  With the leaser present, [drop(items)] calls
    [leaser.remove] with all the items, then
    [manager.activate_ordering_keys] with the non-empty ordering keys of the
    items, one entry for each item that has one, in the order of the items
    (so a key shared by several items is passed once for each of them; no
    empty key is passed, and the keys passed are, as a set, the non-empty
    ordering keys of the items), then [manager.maybe_resume_consumer]. *)
Theorem drop_removes_reactivates_resumes (items : list DropItem.t) (w : World) :
  leaser_present w = true ->
  let keys := filter truthy (map DropItem.ordering_key items) in
  Dispatcher.drop items w =
    (Returned tt,
     add_calls [leaser_remove items; activate_ordering_keys keys;
                maybe_resume_consumer] w)
  /\ ~ In EmptyString keys
  /\ (forall k : string,
        In k keys <->
        k <> EmptyString /\ exists x, In x items /\ DropItem.ordering_key x = k)
  /\ (forall k : string,
        k <> EmptyString ->
        count_occ string_dec keys k
        = count_occ string_dec (map DropItem.ordering_key items) k).
Proof.
  intros P. cbv zeta. split; [| split; [| split]].
  - now rewrite drop_run, P.
  - intros H. apply filter_In in H. now destruct H.
  - intros k. split.
    + intros H. apply filter_In in H. destruct H as [H T]. split.
      * now apply truthy_nonempty.
      * apply in_map_iff in H. destruct H as (x & E & Hx). now exists x.
    + intros (N & x & Hx & E). apply filter_In. split.
      * subst k. now apply in_map.
      * now apply truthy_nonempty.
  - intros k N. induction (map DropItem.ordering_key items) as [|s l IH].
    + reflexivity.
    + simpl. destruct (truthy s) eqn:T; simpl.
      * destruct (string_dec s k); now rewrite IH.
      * destruct (string_dec s k) as [E|_]; [| exact IH].
        subst s. apply truthy_nonempty in N. congruence.
Qed.

Lemma drop_removes_reactivates_resumes_witness :
  Dispatcher.drop Sample.drops_sharing_a_key Sample.world =
    (Returned tt,
     add_calls [leaser_remove Sample.drops_sharing_a_key;
                activate_ordering_keys ["k"; "k"];
                maybe_resume_consumer] Sample.world).
Proof.
  apply (drop_removes_reactivates_resumes Sample.drops_sharing_a_key
                                          Sample.world).
  reflexivity.
Defined.

(** C4, as stated, fails: two items with the same ordering key make [drop]
    pass that key twice. *)
Lemma drop_passes_a_shared_key_twice :
  issued (Dispatcher.drop Sample.drops_sharing_a_key) Sample.world
  = [leaser_remove Sample.drops_sharing_a_key;
     activate_ordering_keys ["k"; "k"];
     maybe_resume_consumer]
  /\ ~ NoDup ["k"; "k"].
Proof.
  split; [reflexivity |].
  intros H. inversion H as [|x l Hin _]. apply Hin. now left.
Qed.

(** ** [ack] *)

Lemma times_to_ack_select (items : list AckRequest.t) :
  map Some (times_to_ack items)
  = filter (fun t => match t with Some _ => true | None => false end)
           (map AckRequest.time_to_ack items).
Proof.
  induction items as [|i items IH]; [reflexivity |].
  unfold times_to_ack in *. simpl.
  destruct (AckRequest.time_to_ack i); simpl; now rewrite IH.
Qed.

(** C5.  [ack(items)] first calls [ack_histogram.add], once for each item
    whose [time_to_ack] is not [None] and in the order of the items, then
    sends the chunked acknowledge requests, which carry the ack ids of the
    items, and then does what [drop] does on the same items: with the leaser
    present, [leaser.remove] of the items, [activate_ordering_keys] and
    [maybe_resume_consumer]. *)
Theorem ack_records_sends_then_drops (items : list AckRequest.t) (w : World) :
  leaser_present w = true ->
  let recorded := map ack_histogram_add (times_to_ack items) in
  let requests := sent (issued (Dispatcher.ack items) w) in
  map Some (times_to_ack items)
    = filter (fun t => match t with Some _ => true | None => false end)
             (map AckRequest.time_to_ack items)
  /\ List.concat (map StreamingPullRequest.ack_ids requests)
     = map AckRequest.ack_id items
  /\ Dispatcher.ack items w
     = Dispatcher.drop (map DropItem.of_ack items)
                       (add_calls (recorded ++ map send requests) w)
  /\ outcome (Dispatcher.ack items) w = Returned tt
  /\ issued (Dispatcher.ack items) w
     = recorded ++ map send requests
       ++ [leaser_remove (map DropItem.of_ack items);
           activate_ordering_keys
             (filter truthy (map AckRequest.ordering_key items));
           maybe_resume_consumer].
Proof.
  intros P. cbv zeta. rewrite ack_sends.
  pose proof (ack_run items w) as R. cbv zeta in R. rewrite P in R.
  split; [apply times_to_ack_select |].
  split; [apply ack_requests_for_spec |].
  split; [| split].
  - rewrite R, drop_run.
    change (leaser_present (add_calls _ w)) with (leaser_present w).
    now rewrite P, add_calls_app.
  - unfold outcome. now rewrite R.
  - rewrite (issued_calls _ _ _ (f_equal snd R)).
    unfold drop_calls. rewrite map_map, <- app_assoc. reflexivity.
Qed.

Lemma ack_records_sends_then_drops_witness :
  issued (Dispatcher.ack [Sample.an_ack]) Sample.world
  = [ack_histogram_add 3;
     send (StreamingPullRequest.mk ["a"] [] []);
     leaser_remove [DropItem.of_ack Sample.an_ack];
     activate_ordering_keys [];
     maybe_resume_consumer].
Proof.
  apply (ack_records_sends_then_drops [Sample.an_ack] Sample.world).
  reflexivity.
Defined.

(** ** Starting and stopping *)

Section LifecycleFacts.

Variable join : Thread -> World -> World.

Lemma set_thread_same (w : World) : set_thread (_thread w) w = w.
Proof. now destruct w. Qed.

Lemma start_running (thread : Thread) (w : World) :
  Dispatcher.start (set_thread (Some thread) w)
  = (Raised (ValueError "Dispatcher is already running."),
     set_thread (Some thread) w).
Proof. reflexivity. Qed.

Lemma stop_idle (w : World) :
  Dispatcher.stop join (set_thread None w) = (Returned tt, set_thread None w).
Proof. reflexivity. Qed.

Lemma stop_clears (w : World) :
  outcome (Dispatcher.stop join) w = Returned tt
  /\ _thread (exec (Dispatcher.stop join) w) = None.
Proof.
  unfold outcome, exec, Dispatcher.stop, bind, gets, modify, ret.
  destruct (_thread w); simpl; now split.
Qed.

(** C6.  [start] on a running dispatcher raises the [ValueError] and
    changes nothing: the thread stays in place, nothing is put on the
    queue, no thread is started; so a second [start] after a first one
    raises.  [stop] on a dispatcher that has no thread returns and changes
    nothing.  [stop] on a running dispatcher puts the poison pill on the
    queue, joins the thread and clears it.  [stop] always returns and
    leaves no thread, and a [stop] after a [stop] returns and changes
    nothing. *)
Theorem start_rejects_running_stop_is_idempotent :
  (forall (thread : Thread) (w : World),
      Dispatcher.start (set_thread (Some thread) w)
      = (Raised (ValueError "Dispatcher is already running."),
         set_thread (Some thread) w))
  /\ (forall w : World,
      let started_once := exec Dispatcher.start (set_thread None w) in
      outcome Dispatcher.start (set_thread None w) = Returned tt
      /\ (exists thread, _thread started_once = Some thread
                         /\ started started_once = started w ++ [thread])
      /\ Dispatcher.start started_once
         = (Raised (ValueError "Dispatcher is already running."),
            started_once))
  /\ (forall w : World,
      Dispatcher.stop join (set_thread None w)
      = (Returned tt, set_thread None w))
  /\ (forall (thread : Thread) (w : World),
      Dispatcher.stop join (set_thread (Some thread) w)
      = (Returned tt,
         set_thread None
           (join thread (enqueue STOP (set_thread (Some thread) w)))))
  /\ (forall w : World,
      let stopped := exec (Dispatcher.stop join) w in
      outcome (Dispatcher.stop join) w = Returned tt
      /\ _thread stopped = None
      /\ Dispatcher.stop join stopped = (Returned tt, stopped)).
Proof.
  split; [| split; [| split; [| split]]].
  - intros thread w. apply start_running.
  - intros w. cbv zeta. split; [reflexivity |]. split.
    + eexists. split; reflexivity.
    + reflexivity.
  - intros w. apply stop_idle.
  - intros thread w. reflexivity.
  - intros w. cbv zeta. destruct (stop_clears w) as [O T].
    split; [exact O |]. split; [exact T |].
    rewrite <- (set_thread_same (exec (Dispatcher.stop join) w)), T.
    apply stop_idle.
Qed.

End LifecycleFacts.

(** ** Items that are no request items *)










Lemma buckets_of_requests (items : list QueueItem) :
  Batch.buckets (filter Batch.is_request items) = Batch.buckets items.
Proof.
  unfold Batch.buckets, Batch.leases, Batch.modacks, Batch.acks, Batch.nacks,
    Batch.drops.
  induction items as [|[[r|r|r|r|r] | ty] items IH]; simpl;
    [reflexivity | injection IH as L Mo A N D .. | exact IH];
    now rewrite L, Mo, A, N, D.
Qed.


Lemma warnings_count (items : list QueueItem) :
  List.length (Batch.warnings items)
  = List.length (filter (fun x => negb (Batch.is_request x)) items).
Proof.
  unfold Batch.warnings, Batch.foreign_types. rewrite length_map.
  induction items as [|[r | ty] items IH]; simpl; [reflexivity | exact IH |].
  now rewrite IH.
Qed.



(** ** Python's floats *)

Section FloatFacts.

Local Open Scope Q_scope.

Lemma exp2_pos (e : Z) : 0 < Float.exp2 e.
Proof. apply Qpower_0_lt. reflexivity. Qed.

Lemma exp2_add (a b : Z) : Float.exp2 (a + b) == Float.exp2 a * Float.exp2 b.
Proof. apply Qpower_plus. discriminate. Qed.

Lemma exp2_le (a b : Z) : (a <= b)%Z -> Float.exp2 a <= Float.exp2 b.
Proof. intros H. apply Qpower_le_compat_l; [exact H | discriminate]. Qed.

Lemma exp2_lt (a b : Z) : (a < b)%Z -> Float.exp2 a < Float.exp2 b.
Proof. intros H. apply Qpower_lt_compat_l; [exact H | reflexivity]. Qed.

Lemma exp2_lt_inv (a b : Z) : Float.exp2 a < Float.exp2 b -> (a < b)%Z.
Proof. intros H. apply (Qpower_lt_compat_l_inv 2); [exact H | reflexivity]. Qed.

Lemma exp2_inject (k : Z) : (0 <= k)%Z -> inject_Z (2 ^ k) == Float.exp2 k.
Proof. intros H. apply (Zpower_Qpower 2 k H). Qed.

Lemma exp2_cancel (a : Z) : Float.exp2 a * Float.exp2 (- a) == 1.
Proof. rewrite <- exp2_add, Z.add_opp_diag_r. reflexivity. Qed.

Lemma binade_spec (x : Q) :
  0 < x -> Float.exp2 (Float.binade x) <= x /\ x < Float.exp2 (Float.binade x + 1).
Proof.
  intros Pos. destruct x as [n d]. unfold Float.binade. cbn [Qnum Qden].
  assert (0 < n)%Z as Hn by (unfold Qlt in Pos; cbn in Pos; lia).
  destruct (Z.log2_spec n Hn) as [Na Nb].
  destruct (Z.log2_spec (Z.pos d) (Pos2Z.is_pos d)) as [Da Db].
  set (a := Z.log2 n) in *. set (b := Z.log2 (Z.pos d)) in *.
  assert (0 <= a)%Z as A0 by apply Z.log2_nonneg.
  assert (0 <= b)%Z as B0 by apply Z.log2_nonneg.
  assert ((n # d) * inject_Z (Z.pos d) == inject_Z n) as X.
  { unfold Qeq, Qmult, inject_Z. cbn. lia. }
  assert (Float.exp2 a <= inject_Z n) as Na'.
  { rewrite <- exp2_inject by exact A0. rewrite <- Zle_Qle. exact Na. }
  assert (inject_Z n < Float.exp2 (a + 1)) as Nb'.
  { rewrite <- exp2_inject by lia. rewrite <- Zlt_Qlt. rewrite <- Z.add_1_r in Nb. exact Nb. }
  assert (Float.exp2 b <= inject_Z (Z.pos d)) as Da'.
  { rewrite <- exp2_inject by exact B0. rewrite <- Zle_Qle. exact Da. }
  assert (inject_Z (Z.pos d) < Float.exp2 (b + 1)) as Db'.
  { rewrite <- exp2_inject by lia. rewrite <- Zlt_Qlt. rewrite <- Z.add_1_r in Db. exact Db. }
  pose proof (exp2_pos b) as Pb.
  destruct (Qle_bool (Float.exp2 (a - b)) (n # d)) eqn:E.
  - apply Qle_bool_iff in E. split; [exact E |].
    apply Qnot_le_lt. intros C.
    assert (Float.exp2 (a - b + 1) * Float.exp2 b == Float.exp2 (a + 1)) as P.
    { rewrite <- exp2_add. replace (a - b + 1 + b)%Z with (a + 1)%Z by lia. reflexivity. }
    pose proof (exp2_pos (a - b + 1)) as Pp.
    set (D := inject_Z (Z.pos d)) in *. set (N := inject_Z n) in *.
    set (p := Float.exp2 (a - b + 1)) in *. set (q := Float.exp2 b) in *. set (r := Float.exp2 (a + 1)) in *.
    set (y := n # d) in *. nra.
  - assert (n # d < Float.exp2 (a - b)) as E'.
    { apply Qnot_le_lt. intros C. apply Qle_bool_iff in C. congruence. }
    replace (a - b - 1 + 1)%Z with (a - b)%Z by lia.
    split; [| exact E'].
    apply Qnot_lt_le. intros C.
    assert (Float.exp2 (a - b - 1) * Float.exp2 (b + 1) == Float.exp2 a) as P.
    { rewrite <- exp2_add. replace (a - b - 1 + (b + 1))%Z with a by lia. reflexivity. }
    pose proof (exp2_pos (a - b - 1)) as Pp.
    set (D := inject_Z (Z.pos d)) in *. set (N := inject_Z n) in *.
    set (p := Float.exp2 (a - b - 1)) in *. set (q := Float.exp2 (b + 1)) in *. set (r := Float.exp2 a) in *.
    set (y := n # d) in *. nra.
Qed.

Lemma binade_unique (x : Q) (e : Z) :
  Float.exp2 e <= x -> x < Float.exp2 (e + 1) -> Float.binade x = e.
Proof.
  intros Lo Hi.
  assert (0 < x) as Pos by (pose proof (exp2_pos e); lra).
  destruct (binade_spec x Pos) as [Lo' Hi'].
  assert (Float.exp2 e < Float.exp2 (Float.binade x + 1)) as A by lra.
  assert (Float.exp2 (Float.binade x) < Float.exp2 (e + 1)) as B by lra.
  apply exp2_lt_inv in A. apply exp2_lt_inv in B. lia.
Qed.

Lemma binade_mono (x y : Q) : 0 < x -> x <= y -> (Float.binade x <= Float.binade y)%Z.
Proof.
  intros Pos Le.
  destruct (binade_spec x Pos) as [Lo _].
  destruct (binade_spec y) as [_ Hi]; [lra |].
  assert (Float.exp2 (Float.binade x) < Float.exp2 (Float.binade y + 1)) as A by lra.
  apply exp2_lt_inv in A. lia.
Qed.

Lemma rne_cases (q : Q) : Float.rne q = Qfloor q \/ Float.rne q = (Qfloor q + 1)%Z.
Proof.
  unfold Float.rne. destruct (Qcompare _ _); [destruct (Z.even _) | |]; auto.
Qed.

Lemma Qfloor_bounds (q : Q) :
  inject_Z (Qfloor q) <= q /\ q < inject_Z (Qfloor q) + 1.
Proof.
  split; [apply Qfloor_le |].
  pose proof (Qlt_floor q) as H. rewrite inject_Z_plus in H. exact H.
Qed.

Lemma rne_ge (q : Q) (n : Z) : inject_Z n <= q -> (n <= Float.rne q)%Z.
Proof.
  intros H. apply Qfloor_resp_le in H. rewrite Qfloor_Z in H.
  destruct (rne_cases q) as [-> | ->]; lia.
Qed.

Lemma rne_le (q : Q) (n : Z) : q <= inject_Z n -> (Float.rne q <= n)%Z.
Proof.
  intros H. destruct (Qfloor_bounds q) as [Lo Hi].
  destruct (Z_lt_le_dec (Qfloor q) n) as [L | G].
  - destruct (rne_cases q) as [-> | ->]; lia.
  - assert (inject_Z n <= inject_Z (Qfloor q)) as G' by (rewrite <- Zle_Qle; exact G).
    assert (q == inject_Z (Qfloor q)) as E by lra.
    assert (Qfloor q = n) as F.
    { apply Z.le_antisymm; [| exact G]. rewrite Zle_Qle. lra. }
    unfold Float.rne. replace (q - inject_Z (Qfloor q) ?= 1 # 2) with Lt; [lia |].
    symmetry. apply -> Qlt_alt. lra.
Qed.

Lemma rne_mono (p q : Q) : p <= q -> (Float.rne p <= Float.rne q)%Z.
Proof.
  intros H. pose proof (Qfloor_resp_le _ _ H) as F.
  destruct (Z.eq_dec (Qfloor p) (Qfloor q)) as [E | N].
  - unfold Float.rne. rewrite E.
    destruct (Qcompare (p - inject_Z (Qfloor q)) (1 # 2)) eqn:P;
      destruct (Qcompare (q - inject_Z (Qfloor q)) (1 # 2)) eqn:Q;
      try (destruct (Z.even (Qfloor q))); try lia;
      try apply <- Qeq_alt in P; try apply <- Qlt_alt in P; try apply <- Qgt_alt in P;
      try apply <- Qeq_alt in Q; try apply <- Qlt_alt in Q; try apply <- Qgt_alt in Q;
      exfalso; lra.
  - destruct (rne_cases p) as [-> | ->]; destruct (rne_cases q) as [-> | ->]; lia.
Qed.

Lemma rne_Z (n : Z) : Float.rne (inject_Z n) = n.
Proof.
  apply Z.le_antisymm; [apply rne_le | apply rne_ge]; apply Qle_refl.
Qed.

(** The quotient of [x] by its unit in the last place. *)
Lemma scaled (x : Q) (e : Z) : x * Float.exp2 (- e) * Float.exp2 e == x.
Proof.
  rewrite <- Qmult_assoc, <- exp2_add. replace (- e + e)%Z with 0%Z by lia.
  unfold Float.exp2. simpl. ring.
Qed.

Lemma scaled_le (x : Q) (e k : Z) : Float.exp2 k <= x -> Float.exp2 (k - e) <= x * Float.exp2 (- e).
Proof.
  intros H. replace (k - e)%Z with (k + - e)%Z by lia. rewrite exp2_add.
  apply Qmult_le_compat_r; [exact H | apply Qlt_le_weak, exp2_pos].
Qed.

Lemma scaled_ge (x : Q) (e k : Z) : x <= Float.exp2 k -> x * Float.exp2 (- e) <= Float.exp2 (k - e).
Proof.
  intros H. replace (k - e)%Z with (k + - e)%Z by lia. rewrite exp2_add.
  apply Qmult_le_compat_r; [exact H | apply Qlt_le_weak, exp2_pos].
Qed.

Lemma round_ge_exp2 (x : Q) (k : Z) :
  (Float.ulp_exponent x <= k)%Z -> Float.exp2 k <= x -> Float.exp2 k <= Float.round x.
Proof.
  intros K H. unfold Float.round. generalize dependent (Float.ulp_exponent x). intros e K.
  assert (inject_Z (2 ^ (k - e)) <= x * Float.exp2 (- e)) as A.
  { rewrite exp2_inject by lia. now apply scaled_le. }
  apply rne_ge in A. rewrite Zle_Qle in A. rewrite exp2_inject in A by lia.
  replace k with ((k - e) + e)%Z at 1 by lia. rewrite (exp2_add (k - e) e).
  apply Qmult_le_compat_r; [exact A | apply Qlt_le_weak, exp2_pos].
Qed.

Lemma round_le_exp2 (x : Q) (k : Z) :
  (Float.ulp_exponent x <= k)%Z -> x <= Float.exp2 k -> Float.round x <= Float.exp2 k.
Proof.
  intros K H. unfold Float.round. generalize dependent (Float.ulp_exponent x). intros e K.
  assert (x * Float.exp2 (- e) <= inject_Z (2 ^ (k - e))) as A.
  { rewrite exp2_inject by lia. now apply scaled_ge. }
  apply rne_le in A. rewrite Zle_Qle in A. rewrite exp2_inject in A by lia.
  replace k with ((k - e) + e)%Z at 1 by lia. rewrite (exp2_add (k - e) e).
  apply Qmult_le_compat_r; [exact A | apply Qlt_le_weak, exp2_pos].
Qed.

Lemma round_nonneg (x : Q) : 0 <= x -> 0 <= Float.round x.
Proof.
  intros H. unfold Float.round. apply Qmult_le_0_compat; [| apply Qlt_le_weak, exp2_pos].
  change 0 with (inject_Z 0). rewrite <- Zle_Qle. apply rne_ge.
  apply Qmult_le_0_compat; [exact H | apply Qlt_le_weak, exp2_pos].
Qed.

Lemma round_nonpos (x : Q) : x <= 0 -> Float.round x <= 0.
Proof.
  intros H. unfold Float.round. generalize (Float.ulp_exponent x). intros e.
  assert (Float.rne (x * Float.exp2 (- e)) <= 0)%Z as A.
  { apply rne_le. change (inject_Z 0) with 0.
    rewrite <- (Qmult_0_l (Float.exp2 (- e))).
    apply Qmult_le_compat_r; [exact H | apply Qlt_le_weak, exp2_pos]. }
  rewrite Zle_Qle in A. change (inject_Z 0) with 0 in A.
  rewrite <- (Qmult_0_l (Float.exp2 e)).
  apply Qmult_le_compat_r; [exact A | apply Qlt_le_weak, exp2_pos].
Qed.

Lemma Qabs_of_pos (x : Q) : 0 < x -> Qabs x = x.
Proof.
  destruct x as [n d]. unfold Qlt. cbn. intros H.
  rewrite Z.abs_eq by lia. reflexivity.
Qed.

Lemma Qabs_of_opp (x : Q) : Qabs (- x) = Qabs x.
Proof. destruct x as [n d]. cbn. now rewrite Z.abs_opp. Qed.

Lemma ulp_exponent_opp (x : Q) : Float.ulp_exponent (- x) = Float.ulp_exponent x.
Proof. unfold Float.ulp_exponent. now rewrite Qabs_of_opp. Qed.

Lemma ulp_exponent_pos (x : Q) :
  0 < x -> Float.ulp_exponent x = (Z.max (Float.binade x) Float.emin - (Float.precision - 1))%Z.
Proof. intros H. unfold Float.ulp_exponent. now rewrite Qabs_of_pos. Qed.

Lemma ulp_exponent_min (x : Q) : (-1074 <= Float.ulp_exponent x)%Z.
Proof. unfold Float.ulp_exponent, Float.emin, Float.precision. lia. Qed.

Lemma rne_comp (p q : Q) : p == q -> Float.rne p = Float.rne q.
Proof.
  intros E. apply Z.le_antisymm; apply rne_mono; rewrite E; apply Qle_refl.
Qed.

Lemma Qfloor_unique (q : Q) (n : Z) :
  inject_Z n <= q -> q < inject_Z n + 1 -> Qfloor q = n.
Proof.
  intros Lo Hi. destruct (Qfloor_bounds q) as [Lo' Hi'].
  assert (inject_Z (Qfloor q) < inject_Z (n + 1)) as A
    by (rewrite inject_Z_plus; change (inject_Z 1) with 1; lra).
  assert (inject_Z n < inject_Z (Qfloor q + 1)) as B
    by (rewrite inject_Z_plus; change (inject_Z 1) with 1; lra).
  rewrite <- Zlt_Qlt in A, B. lia.
Qed.

Lemma rne_opp (q : Q) : Float.rne (- q) = (- Float.rne q)%Z.
Proof.
  destruct (Qfloor_bounds q) as [Lo Hi]. set (f := Qfloor q) in *.
  destruct (Qlt_le_dec (inject_Z f) q) as [Strict | Whole].
  - assert (Qfloor (- q) = (- f - 1)%Z) as F.
    { apply Qfloor_unique; unfold Z.sub; rewrite inject_Z_plus, inject_Z_opp;
        change (inject_Z (- (1))) with (- (1)); lra. }
    unfold Float.rne. rewrite F. fold f.
    assert (- q - inject_Z (- f - 1) == 1 - (q - inject_Z f)) as R.
    { unfold Z.sub. rewrite inject_Z_plus, inject_Z_opp.
      change (inject_Z (- (1))) with (- (1)). ring. }
    destruct (Qcompare (q - inject_Z f) (1 # 2)) eqn:C.
    + apply <- Qeq_alt in C.
      replace (Qcompare (- q - inject_Z (- f - 1)) (1 # 2)) with Eq
        by (symmetry; apply -> Qeq_alt; lra).
      replace (- f - 1)%Z with (- (f + 1))%Z by lia.
      rewrite Z.even_opp, Z.even_add. simpl.
      destruct (Z.even f); simpl; lia.
    + apply <- Qlt_alt in C.
      replace (Qcompare (- q - inject_Z (- f - 1)) (1 # 2)) with Gt
        by (symmetry; apply -> Qgt_alt; lra).
      lia.
    + apply <- Qgt_alt in C.
      replace (Qcompare (- q - inject_Z (- f - 1)) (1 # 2)) with Lt
        by (symmetry; apply -> Qlt_alt; lra).
      lia.
  - assert (q == inject_Z f) as E by lra.
    rewrite (rne_comp q (inject_Z f) E).
    assert (- q == inject_Z (- f)) as E' by (rewrite inject_Z_opp; lra).
    rewrite (rne_comp (- q) (inject_Z (- f)) E').
    now rewrite !rne_Z.
Qed.

Lemma round_opp (x : Q) : Float.round (- x) == - Float.round x.
Proof.
  unfold Float.round. rewrite ulp_exponent_opp. generalize (Float.ulp_exponent x). intros e.
  rewrite (rne_comp (- x * Float.exp2 (- e)) (- (x * Float.exp2 (- e)))) by ring.
  rewrite rne_opp, inject_Z_opp. ring.
Qed.

Lemma round_comp (x y : Q) : 0 < x -> x == y -> Float.round x == Float.round y.
Proof.
  intros Pos E. assert (0 < y) as Pos' by lra.
  unfold Float.round. rewrite !ulp_exponent_pos by assumption.
  assert (Float.binade x = Float.binade y) as B.
  { destruct (binade_spec y Pos') as [Lo Hi]. apply binade_unique; lra. }
  rewrite B. generalize (Z.max (Float.binade y) Float.emin - (Float.precision - 1))%Z. intros e.
  rewrite (rne_comp (x * Float.exp2 (- e)) (y * Float.exp2 (- e))).
  - reflexivity.
  - rewrite E. reflexivity.
Qed.

(** A positive number and its rounding lie in the same binade, or the
    rounding is the next power of two. *)
Lemma round_lower (x : Q) :
  0 < x -> (-1074 <= Float.binade x)%Z -> Float.exp2 (Float.binade x) <= Float.round x.
Proof.
  intros Pos B. destruct (binade_spec x Pos) as [Lo _].
  apply round_ge_exp2; [| exact Lo].
  rewrite ulp_exponent_pos by exact Pos. unfold Float.emin, Float.precision. lia.
Qed.

Lemma round_upper (x : Q) :
  0 < x -> Float.round x <= Float.exp2 (Z.max (Float.binade x + 1) (-1074)).
Proof.
  intros Pos. destruct (binade_spec x Pos) as [_ Hi].
  apply round_le_exp2.
  - rewrite ulp_exponent_pos by exact Pos. unfold Float.emin, Float.precision. lia.
  - apply Qlt_le_weak. eapply Qlt_le_trans; [exact Hi |]. apply exp2_le. lia.
Qed.

Lemma round_mono_pos (x y : Q) : 0 < x -> x <= y -> Float.round x <= Float.round y.
Proof.
  intros Pos Le. assert (0 < y) as Pos' by lra.
  pose proof (binade_mono x y Pos Le) as B.
  destruct (Z.eq_dec (Float.ulp_exponent x) (Float.ulp_exponent y)) as [E | N].
  - unfold Float.round. rewrite E. generalize (Float.ulp_exponent y). intros e.
    apply Qmult_le_compat_r; [| apply Qlt_le_weak, exp2_pos].
    rewrite <- Zle_Qle. apply rne_mono.
    apply Qmult_le_compat_r; [exact Le | apply Qlt_le_weak, exp2_pos].
  - rewrite !ulp_exponent_pos in N by assumption. unfold Float.emin, Float.precision in N.
    eapply Qle_trans; [apply (round_upper x Pos) |].
    eapply Qle_trans; [| apply (round_lower y Pos'); lia].
    apply exp2_le. lia.
Qed.

Lemma round_mono (x y : Q) : x <= y -> Float.round x <= Float.round y.
Proof.
  intros Le.
  destruct (Qlt_le_dec 0 x) as [Px | Nx].
  - now apply round_mono_pos.
  - destruct (Qlt_le_dec y 0) as [Ny | Py].
    + assert (Float.round (- y) <= Float.round (- x)) as M by (apply round_mono_pos; lra).
      rewrite !round_opp in M. lra.
    + eapply Qle_trans; [apply round_nonpos, Nx | apply round_nonneg, Py].
Qed.

(** Every rounding is a multiple of the least positive double. *)
Lemma round_on_grid (x : Q) : exists m : Z, Float.round x == inject_Z m * Float.exp2 (-1074).
Proof.
  unfold Float.round. pose proof (ulp_exponent_min x) as M.
  generalize dependent (Float.ulp_exponent x). intros e M.
  exists (Float.rne (x * Float.exp2 (- e)) * 2 ^ (e + 1074))%Z.
  rewrite inject_Z_mult, exp2_inject by lia.
  rewrite <- Qmult_assoc, <- exp2_add.
  replace (e + 1074 + -1074)%Z with e by lia. reflexivity.
Qed.

Lemma is_float_round (x : Q) : Float.is_float x = true <-> Float.round x == x.
Proof. unfold Float.is_float. apply Qeq_bool_iff. Qed.

Lemma float_gap (a b : Q) :
  Float.is_float a = true -> Float.is_float b = true -> b < a -> Float.exp2 (-1074) <= a - b.
Proof.
  intros Fa Fb Lt. apply is_float_round in Fa, Fb.
  destruct (round_on_grid a) as [m A]. destruct (round_on_grid b) as [n B].
  rewrite Fa in A. rewrite Fb in B.
  pose proof (exp2_pos (-1074)) as P. set (u := Float.exp2 (-1074)) in *.
  assert (inject_Z n < inject_Z m) as L by nra.
  rewrite <- Zlt_Qlt in L.
  assert (inject_Z (n + 1) <= inject_Z m) as L' by (rewrite <- Zle_Qle; lia).
  rewrite inject_Z_plus in L'. change (inject_Z 1) with 1 in L'. nra.
Qed.

Lemma sub_positive (a b : Q) :
  Float.is_float a = true -> Float.is_float b = true -> b < a -> 0 < Float.sub a b.
Proof.
  intros Fa Fb Lt. pose proof (float_gap a b Fa Fb Lt) as G. unfold Float.sub.
  assert (0 < a - b) as Pos by lra.
  destruct (binade_spec (a - b) Pos) as [_ Hi].
  assert (Float.exp2 (-1074) < Float.exp2 (Float.binade (a - b) + 1)) as E by lra.
  apply exp2_lt_inv in E.
  eapply Qlt_le_trans; [apply (exp2_pos (Float.binade (a - b))) |].
  apply round_lower; [exact Pos | lia].
Qed.

Lemma sub_nonpositive (a b : Q) : a <= b -> Float.sub a b <= 0.
Proof. intros Le. apply round_nonpos. lra. Qed.

Lemma sub_below_one (a b : Q) : a - b <= 1 -> Float.sub a b <= 1.
Proof.
  intros Le. unfold Float.sub. change 1 with (Float.exp2 0).
  change 1 with (Float.exp2 0) in Le.
  destruct (Qlt_le_dec 0 (a - b)) as [Pos | Neg].
  - apply round_le_exp2; [| exact Le].
    rewrite ulp_exponent_pos by exact Pos.
    destruct (binade_spec (a - b) Pos) as [Lo _].
    assert (Float.exp2 (Float.binade (a - b)) < Float.exp2 1) as E.
    { eapply Qle_lt_trans; [exact Lo |]. eapply Qle_lt_trans; [exact Le |]. reflexivity. }
    apply exp2_lt_inv in E. unfold Float.emin, Float.precision. lia.
  - eapply Qle_trans; [apply round_nonpos, Neg |]. discriminate.
Qed.

Lemma sub_mono (a a' b : Q) : a <= a' -> Float.sub a b <= Float.sub a' b.
Proof. intros Le. apply round_mono. lra. Qed.

Lemma round_whole_pos (n : Z) :
  (0 < n <= 2 ^ 53)%Z -> Float.round (inject_Z n) == inject_Z n.
Proof.
  intros [Pos Le].
  assert (0 < inject_Z n) as Pos' by (change 0 with (inject_Z 0); now rewrite <- Zlt_Qlt).
  destruct (binade_spec _ Pos') as [Lo Hi].
  assert (inject_Z n <= Float.exp2 53) as Le'.
  { rewrite <- exp2_inject by lia. now rewrite <- Zle_Qle. }
  assert (Float.exp2 0 <= inject_Z n) as Ge'.
  { change (Float.exp2 0) with (inject_Z 1). rewrite <- Zle_Qle. lia. }
  assert (Float.exp2 (Float.binade (inject_Z n)) < Float.exp2 54) as A.
  { eapply Qle_lt_trans; [exact Lo |]. eapply Qle_lt_trans; [exact Le' |].
    apply exp2_lt. lia. }
  assert (Float.exp2 0 < Float.exp2 (Float.binade (inject_Z n) + 1)) as B by lra.
  apply exp2_lt_inv in A. apply exp2_lt_inv in B.
  unfold Float.round. rewrite ulp_exponent_pos by exact Pos'.
  unfold Float.emin, Float.precision.
  set (b := Float.binade (inject_Z n)) in *.
  replace (Z.max b (-1022) - (53 - 1))%Z with (b - 52)%Z by lia.
  destruct (Z_le_gt_dec b 52) as [Small | Big].
  - rewrite (rne_comp _ (inject_Z (n * 2 ^ (52 - b)))).
    + rewrite rne_Z, inject_Z_mult, exp2_inject by lia.
      rewrite <- Qmult_assoc, <- exp2_add.
      replace (52 - b + (b - 52))%Z with 0%Z by lia.
      change (Float.exp2 0) with 1. ring.
    + rewrite inject_Z_mult, exp2_inject by lia.
      replace (- (b - 52))%Z with (52 - b)%Z by lia. reflexivity.
  - assert (b = 53%Z) as -> by lia.
    assert (Float.exp2 53 <= inject_Z n) as Lo' by exact Lo.
    assert (inject_Z n == Float.exp2 53) as E by lra.
    rewrite (rne_comp _ (inject_Z (2 ^ 52))).
    + rewrite rne_Z, E. reflexivity.
    + rewrite E. reflexivity.
Qed.

Lemma round_zero : Float.round 0 == 0.
Proof. reflexivity. Qed.

Lemma round_whole (n : Z) :
  (Z.abs n <= 2 ^ 53)%Z -> Float.round (inject_Z n) == inject_Z n.
Proof.
  intros H. destruct (Z.lt_trichotomy n 0) as [Neg | [-> | Pos]].
  - assert (Float.round (inject_Z (- n)) == inject_Z (- n)) as R
      by (apply round_whole_pos; lia).
    rewrite inject_Z_opp, round_opp in R. lra.
  - apply round_zero.
  - apply round_whole_pos. lia.
Qed.

(** Rounding never crosses a whole number of moderate size. *)
Lemma round_below (x : Q) (n : Z) :
  (Z.abs n <= 2 ^ 53)%Z -> x <= inject_Z n -> Float.round x <= inject_Z n.
Proof.
  intros H Le. rewrite <- (round_whole n H). now apply round_mono.
Qed.

Lemma round_above (x : Q) (n : Z) :
  (Z.abs n <= 2 ^ 53)%Z -> inject_Z n <= x -> inject_Z n <= Float.round x.
Proof.
  intros H Le. rewrite <- (round_whole n H). now apply round_mono.
Qed.

(** ** The ceiling of a float difference *)

Lemma ceil_of_unit (y : Q) : 0 < y -> y <= 1 -> Float.ceil y = 1%Z.
Proof.
  intros Pos Le. unfold Float.ceil.
  pose proof (Qle_ceiling y) as Up.
  pose proof (Qceiling_resp_le _ _ Le) as Hi. change (Qceiling 1) with 1%Z in Hi.
  assert (0 < Qceiling y)%Z as Lo.
  { rewrite Zlt_Qlt. eapply Qlt_le_trans; [exact Pos | exact Up]. }
  lia.
Qed.

Lemma ceil_sub_subsecond (a b : Q) :
  Float.is_float a = true -> Float.is_float b = true ->
  0 < a - b -> a - b < 1 -> Float.ceil (Float.sub a b) = 1%Z.
Proof.
  intros Fa Fb Pos Lt. apply ceil_of_unit.
  - apply sub_positive; [exact Fa | exact Fb | lra].
  - apply sub_below_one. lra.
Qed.

Lemma ceil_sub_near (a b : Q) :
  (Z.abs (Qceiling (a - b)) < 2 ^ 53)%Z ->
  (Qceiling (a - b) - 1 <= Float.ceil (Float.sub a b) <= Qceiling (a - b))%Z.
Proof.
  intros H. unfold Float.ceil, Float.sub.
  set (x := a - b) in *. set (c := Qceiling x) in *.
  pose proof (Qle_ceiling x) as Up. pose proof (Qceiling_lt x) as Down.
  fold c in Up, Down.
  split.
  - assert (inject_Z (c - 1) <= Float.round x) as L
      by (apply round_above; [lia | apply Qlt_le_weak; exact Down]).
    apply Qceiling_resp_le in L. now rewrite Qceiling_Z in L.
  - assert (Float.round x <= inject_Z c) as U by (apply round_below; [lia | exact Up]).
    apply Qceiling_resp_le in U. now rewrite Qceiling_Z in U.
Qed.

Lemma ceil_sub_mono (a a' b : Q) :
  a <= a' -> (Float.ceil (Float.sub a b) <= Float.ceil (Float.sub a' b))%Z.
Proof. intros Le. apply Qceiling_resp_le. now apply sub_mono. Qed.

Lemma ceil_sub_nonpositive (a b : Q) :
  a <= b -> (Float.ceil (Float.sub a b) <= 0)%Z.
Proof.
  intros Le. pose proof (sub_nonpositive a b Le) as H.
  apply Qceiling_resp_le in H. exact H.
Qed.

Lemma ceil_sub_positive (a b : Q) :
  Float.is_float a = true -> Float.is_float b = true -> b < a ->
  (0 < Float.ceil (Float.sub a b))%Z.
Proof.
  intros Fa Fb Lt. pose proof (sub_positive a b Fa Fb Lt) as Pos.
  pose proof (Qle_ceiling (Float.sub a b)) as Up. unfold Float.ceil.
  rewrite Zlt_Qlt. eapply Qlt_le_trans; [exact Pos | exact Up].
Qed.

End FloatFacts.

(** ** The message handle *)

Lemma perform_run (op : Handle.Operation) (self : Message.t) (w : World) :
  Handle.perform op self w
  = (Returned tt,
     (self, enqueue (entry (request_item (Handle.request_of op self (now w)))) w)).
Proof. destruct op; reflexivity. Qed.

Lemma init_run (fromtimestamp : Q -> Outcome datetime.t)
      (message : PubsubMessage.t) (ack_id : string) (delivery_attempt : Z)
      (w : World) :
  Message.__init__ fromtimestamp message ack_id delivery_attempt w
  = match fromtimestamp (Message.publish_timestamp message) with
    | Returned publish_time =>
        (Returned
           (Message.mk message ack_id
              (if (delivery_attempt >? 0)%Z then Some delivery_attempt else None)
              (PubsubMessage.message_id message) (now w)
              (PubsubMessage.attributes message) (PubsubMessage.data message)
              publish_time (PubsubMessage.ordering_key message)
              (PubsubMessage.ByteSize message)),
         w)
    | Raised e => (Raised e, w)
    end.
Proof.
  unfold Message.__init__, bind, gets, of_outcome, ret.
  now destruct (fromtimestamp (Message.publish_timestamp message)).
Qed.

(** C8, as the code has it.  Let [Message.__init__] at clock reading [T0]
    return the handle (it does unless [fromtimestamp] raises on the publish
    time); the world is then as before.  The handle's [ack()] at clock
    reading [T1] returns and puts one entry on the queue: the [AckRequest]
    with the given ack id, the size and the ordering key of the message, and
    with [time_to_ack = ceil(T1 (-) T0)], where [T1 (-) T0] is the float
    difference of the two readings: [T1 - T0] rounded to the nearest double.
    So [time_to_ack] is [ceil(T1 - T0)] when the float difference is the
    exact one; it is [ceil(T1 - T0)] or one less in any case (for a
    ceiling below [2^53]); and it is 1 when the readings are doubles with
    [0 < T1 - T0 < 1]. *)
Theorem ack_records_rounded_up_latency
        (fromtimestamp : Q -> Outcome datetime.t)
        (message : PubsubMessage.t) (ack_id : string) (delivery_attempt : Z)
        (T0 T1 : Q) (w0 w1 : World) (self : Message.t) :
  outcome (Message.__init__ fromtimestamp message ack_id delivery_attempt)
          (set_now T0 w0)
  = Returned self ->
  let time_to_ack := Float.ceil (Float.sub T1 T0) in
  let request (n : Z) :=
    entry
      (request_item
         (Ack (AckRequest.mk ack_id (PubsubMessage.ByteSize message) (Some n)
                             (PubsubMessage.ordering_key message)))) in
  exec (Message.__init__ fromtimestamp message ack_id delivery_attempt)
       (set_now T0 w0)
  = set_now T0 w0
  /\ Message.ack self (set_now T1 w1)
     = (Returned tt, (self, enqueue (request time_to_ack) (set_now T1 w1)))
  /\ queue (snd (snd (Message.ack self (set_now T1 w1))))
     = queue w1 ++ [request time_to_ack]
  /\ ((Float.sub T1 T0 == T1 - T0)%Q -> time_to_ack = Qceiling (T1 - T0))
  /\ ((Z.abs (Qceiling (T1 - T0)) < 2 ^ 53)%Z ->
      (Qceiling (T1 - T0) - 1 <= time_to_ack <= Qceiling (T1 - T0))%Z)
  /\ (Float.is_float T0 = true -> Float.is_float T1 = true ->
      (0 < T1 - T0)%Q -> (T1 - T0 < 1)%Q ->
      time_to_ack = 1%Z
      /\ queue (snd (snd (Message.ack self (set_now T1 w1))))
         = queue w1 ++ [request 1%Z]).
Proof.
  unfold outcome, exec. rewrite init_run.
  destruct (fromtimestamp (Message.publish_timestamp message))
    as [publish_time | e]; [| discriminate].
  cbn [fst snd]. intros I. injection I as <-. cbv zeta.
  split; [reflexivity |]. split; [reflexivity |]. split; [reflexivity |].
  split; [| split].
  - intros E. unfold Float.ceil. now rewrite E.
  - apply ceil_sub_near.
  - intros F0 F1 Pos Lt.
    pose proof (ceil_sub_subsecond T1 T0 F1 F0 Pos Lt) as One.
    split; [exact One |].
    cbn [Message.ack Message.on_self snd queue]. simpl.
    now rewrite One.
Qed.

Lemma ack_records_rounded_up_latency_witness :
  outcome (Message.__init__ Sample.fromtimestamp Sample.a_message "a" 0)
          (set_now (1 # 2) Sample.world)
  = Returned Sample.handle
  /\ queue (snd (snd (Message.ack Sample.handle (set_now (3 # 4) Sample.world))))
     = [entry (request_item (Ack (AckRequest.mk "a" 10 (Some 1%Z) "k")))].
Proof.
  assert (I : outcome (Message.__init__ Sample.fromtimestamp Sample.a_message
                                        "a" 0)
                      (set_now (1 # 2) Sample.world)
              = Returned Sample.handle) by (vm_compute; reflexivity).
  split; [exact I |].
  destruct (ack_records_rounded_up_latency
              Sample.fromtimestamp Sample.a_message "a" 0 (1 # 2) (3 # 4)
              Sample.world Sample.world Sample.handle I)
    as (_ & _ & _ & _ & _ & Sub).
  destruct Sub as [_ Q]; [vm_compute; reflexivity | vm_compute; reflexivity
                          | reflexivity | reflexivity |].
  exact Q.
Defined.

(** C8 as the specification words it does not hold: [time_to_ack] is not
    always [ceil(T1 - T0)].  A handle is received at the clock reading
    [0.9999999999999999] and acknowledged at the clock reading [3.0].  The
    float difference is [2.0], so [ack()] records 2, while the elapsed time
    [2 + 2^-53] has ceiling 3. *)
Lemma ack_takes_the_ceiling_of_the_float_difference :
  Float.is_float Specimen.just_below_one = true
  /\ Float.is_float 3 = true
  /\ outcome (Message.__init__ Sample.fromtimestamp Sample.a_message "a" 0)
             (set_now Specimen.just_below_one Sample.world)
     = Returned Specimen.early_handle
  /\ queue (snd (snd (Message.ack Specimen.early_handle
                                  (set_now 3 Sample.world))))
     = [entry (request_item (Ack (AckRequest.mk "a" 10 (Some 2%Z) "k")))]
  /\ Qceiling (3 - Specimen.just_below_one) = 3%Z.
Proof.
  repeat split; vm_compute; reflexivity.
Qed.

(** C9, as the code has it.  Each of [ack], [nack], [modify_ack_deadline]
    and [drop] returns, leaves the handle as it was, and changes the world
    only by putting one entry on the request queue: the record of the
    operation.  The record carries the handle's ack id; for [ack], [nack] and
    [drop] it also carries the handle's size and ordering key; for
    [modify_ack_deadline] it is a [ModAckRequest], which carries the ack id
    and the caller's seconds and has no size and no ordering key.  This holds
    in every world, so after any history of operations on the handle: a
    history of [n] operations returns, leaves the handle and the call log as
    they were, and adds its [n] records to the queue, in order. *)
Theorem handle_operations_only_enqueue
        (self : Message.t) (w : World) (history : list (Q * Handle.Operation))
        (op : Handle.Operation) :
  let r := Handle.request_of op self (now w) in
  Handle.perform op self w
    = (Returned tt, (self, enqueue (entry (request_item r)) w))
  /\ calls (enqueue (entry (request_item r)) w) = calls w
  /\ Handle.ack_id_of r = Message.ack_id self
  /\ match op with
     | Handle.op_modify_ack_deadline seconds =>
         r = ModAck (ModAckRequest.mk (Message.ack_id self) seconds)
     | _ =>
         Handle.byte_size_of r = Some (Message.size self)
         /\ Handle.ordering_key_of r = Some (Message.ordering_key self)
     end
  /\ exists w' : World,
      Handle.perform_all history self w = (Returned tt, (self, w'))
      /\ queue w' = queue w ++ Handle.entries_of history self
      /\ calls w' = calls w
      /\ leaser_present w' = leaser_present w
      /\ warned w' = warned w
      /\ _thread w' = _thread w
      /\ started w' = started w.
Proof.
  cbv zeta. split; [apply perform_run |]. split; [reflexivity |].
  split; [now destruct op |]. split; [destruct op; now try split |].
  revert w. induction history as [|[t o] history IH]; intros w.
  - exists w. simpl. rewrite app_nil_r. now repeat split.
  - simpl. rewrite perform_run.
    destruct (IH (enqueue (entry (request_item
                                    (Handle.request_of o self
                                       (now (set_now t w)))))
                          (set_now t w)))
      as (w' & R & Qu & Ca & Le & Wa & Th & St).
    exists w'. rewrite R, Qu, Ca, Le, Wa, Th, St. simpl.
    rewrite <- app_assoc. now repeat split.
Qed.

(** C9, as stated, fails for [modify_ack_deadline]: the record it enqueues
    carries neither the handle's size nor its ordering key. *)
Lemma modify_ack_deadline_record_has_no_size :
  queue (snd (snd (Message.modify_ack_deadline 30 Sample.handle Sample.world)))
  = [entry (request_item (ModAck (ModAckRequest.mk "a" 30)))]
  /\ Handle.byte_size_of (ModAck (ModAckRequest.mk "a" 30))
     <> Some (Message.size Sample.handle)
  /\ Handle.ordering_key_of (ModAck (ModAckRequest.mk "a" 30))
     <> Some (Message.ordering_key Sample.handle).
Proof.
  split; [reflexivity |]. split; discriminate.
Qed.

(** ** Empty buckets *)

Lemma Forall_if_nonempty {A : Type} (P : Call -> Prop) (xs : list A)
      (calls_of : list A -> list Call) :
  (xs <> [] -> Forall P (calls_of xs)) -> Forall P (if_nonempty xs calls_of).
Proof.
  intros H. unfold if_nonempty. destruct xs as [|x xs]; simpl.
  - constructor.
  - apply H. discriminate.
Qed.

(** Proves [Forall P l] for a list of calls [l] built with [++], [::] and
    [map], when [P] holds of each call by computation. *)
Ltac all_calls :=
  repeat match goal with
         | |- Forall _ [] => apply Forall_nil
         | |- Forall _ (_ ++ _) => apply Forall_app; split
         | |- Forall _ (_ :: _) => apply Forall_cons
         | |- Forall _ (map _ _) => apply Forall_map
         | |- Forall _ (drop_calls _) => fail 1
         | |- Forall _ _ => apply Forall_forall; intros ? _
         end;
  try exact I; try (split; reflexivity); try reflexivity.

Lemma lease_calls_kinds (items : list LeaseRequest.t) :
  (items <> [] -> Forall CallKind.has_items (lease_calls items))
  /\ Forall CallKind.not_of_ack (lease_calls items)
  /\ Forall CallKind.not_of_modack (lease_calls items)
  /\ Forall CallKind.not_of_drop (lease_calls items).
Proof.
  unfold lease_calls. repeat split; try all_calls.
  intros N. destruct items; [contradiction | all_calls].
Qed.

Lemma modack_calls_kinds (items : list ModAckRequest.t) :
  Forall CallKind.has_items (modack_calls items)
  /\ Forall CallKind.not_of_lease (modack_calls items)
  /\ Forall CallKind.not_of_ack (modack_calls items)
  /\ Forall CallKind.not_of_drop (modack_calls items).
Proof.
  unfold modack_calls, modack_requests_for. repeat split; all_calls.
Qed.

Lemma drop_calls_kinds (items : list DropItem.t) :
  (items <> [] -> Forall CallKind.has_items (drop_calls items))
  /\ Forall CallKind.not_of_lease (drop_calls items)
  /\ Forall CallKind.not_of_ack (drop_calls items)
  /\ Forall CallKind.not_of_modack (drop_calls items).
Proof.
  unfold drop_calls. repeat split; try all_calls.
  intros N. destruct items; [contradiction | all_calls].
Qed.

Lemma ack_calls_kinds (items : list AckRequest.t) :
  (items <> [] -> Forall CallKind.has_items (ack_calls items))
  /\ Forall CallKind.not_of_lease (ack_calls items)
  /\ Forall CallKind.not_of_modack (ack_calls items).
Proof.
  unfold ack_calls, ack_requests_for.
  destruct (drop_calls_kinds (map DropItem.of_ack items)) as (D1 & D2 & _ & D4).
  repeat split; try (all_calls; assumption).
  intros N. all_calls. apply D1. now destruct items.
Qed.

Lemma nack_calls_kinds (items : list NackRequest.t) :
  (items <> [] -> Forall CallKind.has_items (nack_calls items))
  /\ Forall CallKind.not_of_lease (nack_calls items)
  /\ Forall CallKind.not_of_ack (nack_calls items).
Proof.
  unfold nack_calls, modack_requests_for.
  destruct (drop_calls_kinds (nack_drops items)) as (D1 & D2 & D3 & _).
  repeat split; try (all_calls; assumption).
  intros N. all_calls. apply D1. now destruct items.
Qed.

Lemma handle_calls_has_items (b : Dispatcher.Buckets) :
  Forall CallKind.has_items (handle_calls b).
Proof.
  unfold handle_calls.
  repeat (apply Forall_app; split); apply Forall_if_nonempty.
  - apply lease_calls_kinds.
  - intros _. apply modack_calls_kinds.
  - apply ack_calls_kinds.
  - apply nack_calls_kinds.
  - intros N. apply drop_calls_kinds. now destruct (Dispatcher.drop_requests b).
Qed.

Lemma handle_calls_no_lease (b : Dispatcher.Buckets) :
  Dispatcher.lease_requests b = [] ->
  Forall CallKind.not_of_lease (handle_calls b).
Proof.
  intros E. unfold handle_calls. rewrite E.
  repeat (apply Forall_app; split); apply Forall_if_nonempty; intros N.
  - now contradiction N.
  - apply modack_calls_kinds.
  - apply ack_calls_kinds.
  - apply nack_calls_kinds.
  - apply drop_calls_kinds.
Qed.

Lemma handle_calls_no_ack (b : Dispatcher.Buckets) :
  Dispatcher.ack_requests b = [] ->
  Forall CallKind.not_of_ack (handle_calls b).
Proof.
  intros E. unfold handle_calls. rewrite E.
  repeat (apply Forall_app; split); apply Forall_if_nonempty; intros N.
  - apply lease_calls_kinds.
  - apply modack_calls_kinds.
  - now contradiction N.
  - apply nack_calls_kinds.
  - apply drop_calls_kinds.
Qed.

Lemma handle_calls_no_modack (b : Dispatcher.Buckets) :
  Dispatcher.modack_requests b = [] ->
  Dispatcher.nack_requests b = [] ->
  Forall CallKind.not_of_modack (handle_calls b).
Proof.
  intros E1 E2. unfold handle_calls. rewrite E1, E2.
  repeat (apply Forall_app; split); apply Forall_if_nonempty; intros N.
  - apply lease_calls_kinds.
  - now contradiction N.
  - apply ack_calls_kinds.
  - now contradiction N.
  - apply drop_calls_kinds.
Qed.

Lemma handle_calls_no_drop (b : Dispatcher.Buckets) :
  Dispatcher.ack_requests b = [] ->
  Dispatcher.nack_requests b = [] ->
  Dispatcher.drop_requests b = [] ->
  Forall CallKind.not_of_drop (handle_calls b).
Proof.
  intros E1 E2 E3. unfold handle_calls. rewrite E1, E2, E3.
  repeat (apply Forall_app; split); apply Forall_if_nonempty; intros N.
  - apply lease_calls_kinds.
  - apply modack_calls_kinds.
  - now contradiction N.
  - now contradiction N.
  - now contradiction N.
Qed.

(** What holds of the calls of the buckets holds of the calls issued. *)
Lemma issued_by_dispatch_callback (P : Call -> Prop) (items : list QueueItem)
      (w : World) :
  Forall P (handle_calls (Batch.buckets items)) ->
  Forall P (issued (Dispatcher.dispatch_callback items) w).
Proof.
  intros H.
  destruct (dispatch_callback_prefix items w) as (cs & rest & E & S).
  rewrite (issued_add_calls _ _ _ _ E).
  rewrite S in H. now apply Forall_app in H.
Qed.

Lemma no_selected {A : Type} (f : A -> QueueItem) (selected : list A)
      (p : QueueItem -> bool) (items : list QueueItem) :
  map f selected = filter p items -> filter p items = [] -> selected = [].
Proof.
  intros S E. rewrite E in S. now apply map_eq_nil in S.
Qed.

(** C10.  [dispatch_callback] calls the handler of a variant only when the
    batch has an item of that variant.  So every [leaser.add] and
    [leaser.remove] of a dispatch is given at least one item; a batch
    without lease requests issues no call of [lease]; without ack requests,
    no histogram sample and no acknowledging request; without modack and
    nack requests, no deadline request; without ack, nack and drop requests,
    no call of the drop handling.  A batch without any recognised item (the
    empty batch too) returns after issuing no call at all. *)
Theorem dispatch_callback_skips_empty_buckets (items : list QueueItem) (w : World) :
  let run := Dispatcher.dispatch_callback items in
  calls (exec run w) = calls w ++ issued run w
  /\ Forall CallKind.has_items (issued run w)
  /\ (filter Batch.is_lease items = [] ->
      Forall CallKind.not_of_lease (issued run w))
  /\ (filter Batch.is_ack items = [] ->
      Forall CallKind.not_of_ack (issued run w))
  /\ (filter Batch.is_modack items = [] -> filter Batch.is_nack items = [] ->
      Forall CallKind.not_of_modack (issued run w))
  /\ (filter Batch.is_ack items = [] -> filter Batch.is_nack items = [] ->
      filter Batch.is_drop items = [] ->
      Forall CallKind.not_of_drop (issued run w))
  /\ (filter Batch.is_request items = [] ->
      run w = (Returned tt, add_warnings (Batch.warnings items) w)
      /\ issued run w = [])
  /\ Dispatcher.dispatch_callback [] w = (Returned tt, w).
Proof.
  cbv zeta.
  split; [| split; [| split; [| split; [| split; [| split; [| split]]]]]].
  - destruct (dispatch_callback_prefix items w) as (cs & rest & E & _).
    apply (log_grows _ _ _ _ E).
  - apply issued_by_dispatch_callback, handle_calls_has_items.
  - intros L. apply issued_by_dispatch_callback, handle_calls_no_lease.
    apply (no_selected _ _ _ _ (leases_select items) L).
  - intros A. apply issued_by_dispatch_callback, handle_calls_no_ack.
    apply (no_selected _ _ _ _ (acks_select items) A).
  - intros Mo N. apply issued_by_dispatch_callback, handle_calls_no_modack.
    + apply (no_selected _ _ _ _ (modacks_select items) Mo).
    + apply (no_selected _ _ _ _ (nacks_select items) N).
  - intros A N D. apply issued_by_dispatch_callback, handle_calls_no_drop.
    + apply (no_selected _ _ _ _ (acks_select items) A).
    + apply (no_selected _ _ _ _ (nacks_select items) N).
    + apply (no_selected _ _ _ _ (drops_select items) D).
  - intros E.
    assert (R : Dispatcher.dispatch_callback items w
                = (Returned tt, add_warnings (Batch.warnings items) w)).
    { rewrite dispatch_callback_run, <- buckets_of_requests, E. reflexivity. }
    split; [exact R |].
    apply (issued_add_calls _ _ [] (Batch.warnings items)).
    unfold exec. rewrite R. simpl. now rewrite add_calls_nil.
  - unfold Dispatcher.dispatch_callback, bind. simpl. reflexivity.
Qed.

Lemma dispatch_callback_skips_empty_buckets_witness :
  Forall CallKind.not_of_lease
         (issued (Dispatcher.dispatch_callback Sample.foreign_then_drop)
                 Sample.world).
Proof.
  destruct (dispatch_callback_skips_empty_buckets Sample.foreign_then_drop
                                                  Sample.world)
    as (_ & _ & H & _).
  apply H. reflexivity.
Defined.

(** * Further properties *)

(** ** Strings *)

Lemma append_empty_r (s : string) : (s ++ EmptyString)%string = s.
Proof. induction s as [|c s IH]; simpl; [reflexivity | now rewrite IH]. Qed.

Lemma append_assoc (s1 s2 s3 : string) :
  ((s1 ++ s2) ++ s3)%string = (s1 ++ (s2 ++ s3))%string.
Proof. induction s1 as [|c s1 IH]; simpl; [reflexivity | now rewrite IH]. Qed.

Lemma length_append (s1 s2 : string) :
  String.length (s1 ++ s2) = String.length s1 + String.length s2.
Proof. induction s1 as [|c s1 IH]; simpl; [reflexivity | now rewrite IH]. Qed.

Lemma newline_free_append (s1 s2 : string) :
  Text.newline_free (s1 ++ s2)
  = Text.newline_free s1 && Text.newline_free s2.
Proof.
  induction s1 as [|c s1 IH]; simpl; [reflexivity |].
  now rewrite IH, andb_assoc.
Qed.

Lemma split_newline_nonempty (s : string) : Text.split_newline s <> [].
Proof.
  induction s as [|c s IH]; simpl; [discriminate |].
  destruct (Text.is_newline c); [discriminate |].
  destruct (Text.split_newline s); discriminate.
Qed.

(** The pieces of a split hold no newline. *)
Lemma split_newline_pieces (s : string) :
  Forall (fun line => Text.newline_free line = true) (Text.split_newline s).
Proof.
  induction s as [|c s IH]; simpl.
  - now repeat constructor.
  - destruct (Text.is_newline c) eqn:N.
    + now constructor.
    + destruct (Text.split_newline s) as [|line lines].
      * repeat constructor. simpl. now rewrite N.
      * inversion IH as [|? ? Hl Hls]; subst.
        constructor; [| exact Hls]. simpl. now rewrite N, Hl.
Qed.

(** Joining what a split gives back the string. *)
Lemma join_split_newline (s : string) :
  Text.join Text.newline (Text.split_newline s) = s.
Proof.
  unfold Text.join. induction s as [|c s IH]; [reflexivity |].
  simpl Text.split_newline.
  destruct (Text.is_newline c) eqn:N.
  - apply Ascii.eqb_eq in N. subst c.
    destruct (Text.split_newline s) as [|line lines] eqn:E.
    + now destruct (split_newline_nonempty s).
    + change (String.concat Text.newline (EmptyString :: line :: lines))
        with (String Text.newline_char
                     (String.concat Text.newline (line :: lines))).
      now rewrite IH.
  - destruct (Text.split_newline s) as [|line lines] eqn:E.
    + now destruct (split_newline_nonempty s).
    + destruct lines as [|line' lines]; simpl in *; now rewrite IH.
Qed.

(** A newline-free string in front of a text goes into its first line. *)
Lemma split_newline_prepend (p s : string) :
  Text.newline_free p = true ->
  Text.split_newline (p ++ s)
  = match Text.split_newline s with
    | line :: lines => (p ++ line)%string :: lines
    | [] => []
    end.
Proof.
  intros F. induction p as [|c p IH]; simpl.
  - now destruct (Text.split_newline s).
  - simpl in F. apply andb_prop in F. destruct F as [Fc Fp].
    apply negb_true_iff in Fc. rewrite Fc, (IH Fp).
    destruct (Text.split_newline s) as [|line lines] eqn:E;
      [now destruct (split_newline_nonempty s) | reflexivity].
Qed.

Lemma split_newline_after_newline (s : string) :
  Text.split_newline (String Text.newline_char s)
  = EmptyString :: Text.split_newline s.
Proof.
  reflexivity.
Qed.

(** Splitting what a join of newline-free pieces gives back the pieces. *)
Lemma split_newline_join (pieces : list string) :
  pieces <> [] ->
  Forall (fun line => Text.newline_free line = true) pieces ->
  Text.split_newline (Text.join Text.newline pieces) = pieces.
Proof.
  unfold Text.join. intros N F.
  induction pieces as [|x xs IH]; [contradiction |].
  inversion F as [|? ? Fx Fxs]; subst.
  destruct xs as [|y ys].
  - simpl. rewrite <- (append_empty_r x) at 1.
    rewrite (split_newline_prepend _ _ Fx). simpl.
    now rewrite append_empty_r.
  - change (String.concat Text.newline (x :: y :: ys))
      with (x ++ String Text.newline_char
                     (String.concat Text.newline (y :: ys)))%string.
    rewrite (split_newline_prepend _ _ Fx), split_newline_after_newline.
    rewrite IH by (discriminate || assumption).
    now rewrite append_empty_r.
Qed.

Lemma indented_lines (prefix : string) (lines acc : list string) :
  fold_left (fun indented line => indented ++ [(prefix ++ line)%string])
            lines acc
  = acc ++ map (String.append prefix) lines.
Proof.
  revert acc. induction lines as [|l lines IH]; intros acc; simpl.
  - now rewrite app_nil_r.
  - now rewrite IH, <- app_assoc.
Qed.

Lemma indent_by_lines (s prefix : string) :
  MessageText._indent s prefix
  = Text.join Text.newline
              (map (String.append prefix) (Text.split_newline s)).
Proof. unfold MessageText._indent. now rewrite indented_lines. Qed.

(** ** [_indent] *)

Lemma split_newline_count (s : string) :
  List.length (Text.split_newline s) = S (Text.count_newlines s).
Proof.
  induction s as [|c s IH]; simpl; [reflexivity |].
  destruct (Text.is_newline c); simpl; [now rewrite IH |].
  destruct (Text.split_newline s) as [|line lines] eqn:E;
    [now destruct (split_newline_nonempty s) | exact IH].
Qed.

Lemma prefixed_pieces (prefix : string) (pieces : list string) :
  Text.newline_free prefix = true ->
  Forall (fun line => Text.newline_free line = true) pieces ->
  Forall (fun line => Text.newline_free line = true)
         (map (String.append prefix) pieces).
Proof.
  intros Fp F. apply Forall_map. eapply Forall_impl; [| exact F].
  intros line Fl. simpl. now rewrite newline_free_append, Fp, Fl.
Qed.

Lemma split_newline_indent (text prefix : string) :
  Text.newline_free prefix = true ->
  Text.split_newline (MessageText._indent text prefix)
  = map (String.append prefix) (Text.split_newline text).
Proof.
  intros Fp. rewrite indent_by_lines. apply split_newline_join.
  - intros E. apply map_eq_nil in E. now apply split_newline_nonempty in E.
  - apply prefixed_pieces; [exact Fp | apply split_newline_pieces].
Qed.

(** X1.  When the prefix holds no newline, the lines of
    [_indent(text, prefix)] are the lines of [text], in order, each with
    the prefix in front: no line is added, lost or merged. *)
Theorem indent_prefixes_every_line (text prefix : string) :
  Text.newline_free prefix = true ->
  Text.split_newline (MessageText._indent text prefix)
  = map (String.append prefix) (Text.split_newline text).
Proof. apply split_newline_indent. Qed.

Lemma indent_prefixes_every_line_witness :
  Text.split_newline
    (MessageText._indent Specimen.three_lines MessageText.default_prefix)
  = ["  {"; "  "; "  }"].
Proof.
  apply (indent_prefixes_every_line Specimen.three_lines
                                     MessageText.default_prefix).
  reflexivity.
Defined.

(** X2.  [_indent] with the empty prefix gives the text back: splitting
    at the newlines and joining with newlines are inverse. *)
Theorem indent_with_empty_prefix (text : string) :
  MessageText._indent text EmptyString = text.
Proof.
  rewrite indent_by_lines.
  rewrite (map_ext (String.append EmptyString) (fun x => x))
    by reflexivity.
  rewrite map_id. apply join_split_newline.
Qed.

Lemma join_length (sep : string) (pieces : list string) :
  String.length (Text.join sep pieces) + String.length sep
  = list_sum (map String.length pieces)
    + String.length sep * List.length pieces
    + (if nonempty pieces then 0 else String.length sep).
Proof.
  unfold Text.join. induction pieces as [|x xs IH]; simpl; [lia |].
  destruct xs as [|y ys]; [simpl; lia |].
  rewrite !length_append.
  change (String.length x + (String.length sep
            + String.length (String.concat sep (y :: ys)))
          + String.length sep
          = String.length x + list_sum (map String.length (y :: ys))
            + String.length sep * S (List.length (y :: ys)) + 0).
  simpl nonempty in IH. cbv iota in IH. rewrite Nat.mul_succ_r. lia.
Qed.

Lemma prefixed_lengths (prefix : string) (pieces : list string) :
  list_sum (map String.length (map (String.append prefix) pieces))
  = list_sum (map String.length pieces)
    + String.length prefix * List.length pieces.
Proof.
  induction pieces as [|x xs IH]; simpl; [lia |].
  rewrite length_append, IH, Nat.mul_succ_r. lia.
Qed.

(** X3.  [_indent] lengthens the text by one prefix for each line, and
    the text has one line more than it has newlines. *)
Theorem indent_length (text prefix : string) :
  String.length (MessageText._indent text prefix)
  = String.length text
    + String.length prefix * S (Text.count_newlines text).
Proof.
  rewrite indent_by_lines, <- split_newline_count.
  pose proof (join_length Text.newline
                (map (String.append prefix) (Text.split_newline text))) as A.
  pose proof (join_length Text.newline (Text.split_newline text)) as B.
  rewrite join_split_newline in B.
  rewrite length_map in A.
  rewrite prefixed_lengths in A.
  destruct (Text.split_newline text) as [|l ls] eqn:E;
    [now destruct (split_newline_nonempty text) |].
  simpl nonempty in *. cbv iota in *. simpl List.length in *.
  rewrite !Nat.mul_succ_r in *. lia.
Qed.

(** X4.  Indenting an indented text is indenting once with both prefixes,
    the second in front, when the first prefix holds no newline. *)
Theorem indent_twice (text inner outer : string) :
  Text.newline_free inner = true ->
  MessageText._indent (MessageText._indent text inner) outer
  = MessageText._indent text (outer ++ inner).
Proof.
  intros F. rewrite (indent_by_lines (MessageText._indent text inner)).
  rewrite (split_newline_indent _ _ F), map_map, indent_by_lines.
  f_equal. apply map_ext. intros line. now rewrite append_assoc.
Qed.

Lemma indent_twice_witness :
  MessageText._indent
    (MessageText._indent Specimen.three_lines MessageText.default_prefix) "> "
  = MessageText._indent Specimen.three_lines ">   ".
Proof.
  apply (indent_twice Specimen.three_lines MessageText.default_prefix "> ").
  reflexivity.
Defined.

(** ** [Message.__repr__] *)

Lemma join_prefixed (sep prefix : string) (pieces : list string) :
  pieces <> [] ->
  Text.join sep (map (String.append prefix) pieces)
  = (prefix ++ Text.join (sep ++ prefix) pieces)%string.
Proof.
  unfold Text.join. intros N.
  induction pieces as [|x xs IH]; [contradiction |].
  destruct xs as [|y ys]; [reflexivity |].
  change (String.concat sep (map (String.append prefix) (x :: y :: ys)))
    with ((prefix ++ x) ++ sep
          ++ String.concat sep (map (String.append prefix) (y :: ys)))%string.
  rewrite IH by discriminate.
  change (String.concat (sep ++ prefix) (x :: y :: ys))
    with (x ++ (sep ++ prefix) ++ String.concat (sep ++ prefix) (y :: ys))%string.
  now rewrite !append_assoc.
Qed.

Lemma join_split_head (sep : string) (c : ascii) (s : string) :
  Text.is_newline c = false ->
  exists rest, Text.join sep (Text.split_newline (String c s)) = String c rest.
Proof.
  intros N. unfold Text.join. simpl. rewrite N.
  destruct (Text.split_newline s) as [|line lines]; [now eexists |].
  destruct lines; simpl; now eexists.
Qed.

Lemma isspace_newline (c : ascii) : Text.is_newline c = true -> Text.isspace c = true.
Proof.
  intros N. apply Ascii.eqb_eq in N. now subst c.
Qed.

(** Stripping an indented text that starts with no space leaves its first
    line where it was and the other lines indented. *)
Lemma lstrip_indent (c : ascii) (s : string) :
  Text.isspace c = false ->
  Text.lstrip (MessageText._indent (String c s) MessageText.default_prefix)
  = Text.join (Text.newline ++ MessageText.default_prefix)
              (Text.split_newline (String c s)).
Proof.
  intros Sp.
  assert (N : Text.is_newline c = false).
  { destruct (Text.is_newline c) eqn:E; [| reflexivity].
    apply isspace_newline in E. congruence. }
  rewrite indent_by_lines, join_prefixed by apply split_newline_nonempty.
  destruct (join_split_head (Text.newline ++ MessageText.default_prefix) c s N)
    as (rest & E).
  rewrite E. simpl. now rewrite Sp.
Qed.

Lemma length_substring_0 (m : nat) (s : string) :
  String.length (substring 0 m s) = Nat.min m (String.length s).
Proof.
  revert s. induction m as [|m IH]; intros s.
  - now destruct s.
  - destruct s as [|c s]; simpl; [reflexivity | now rewrite IH].
Qed.

Lemma substring_0_append (m : nat) (s t : string) :
  m <= String.length s -> substring 0 m (s ++ t) = substring 0 m s.
Proof.
  revert s. induction m as [|m IH]; intros s L.
  - destruct s; simpl; now destruct t.
  - destruct s as [|c s]; simpl in *; [lia |].
    rewrite IH by lia. reflexivity.
Qed.

Lemma substring_0_twice (m : nat) (s : string) :
  substring 0 m (substring 0 m s) = substring 0 m s.
Proof.
  revert s. induction m as [|m IH]; intros s.
  - now destruct s.
  - destruct s as [|c s]; simpl; [reflexivity | now rewrite IH].
Qed.

Lemma abbreviated_data_twice (data : string) :
  MessageText.abbreviated_data (MessageText.abbreviated_data data)
  = MessageText.abbreviated_data data.
Proof.
  unfold MessageText.abbreviated_data.
  destruct (50 <? String.length data) eqn:Long.
  - apply Nat.ltb_lt in Long.
    assert (L : String.length (substring 0 50 data) = 50).
    { rewrite length_substring_0. lia. }
    assert (L' : (50 <? String.length (substring 0 50 data ++ "...")) = true).
    { apply Nat.ltb_lt. rewrite length_append, L.
      change (String.length "...") with 3. lia. }
    rewrite L'. f_equal.
    rewrite substring_0_append by lia. apply substring_0_twice.
  - now rewrite Long.
Qed.

Section ReprFacts.

Variable repr_bytes : string -> string.
Variable repr_str : string -> string.
Variable json_dumps : list (string * string) -> string.

(** X5.  When the JSON text of the attributes starts with a character that
    is no white space (it starts with a brace), the attributes block of
    [__repr__] is that text with two spaces after each of its newlines: the
    first line is not indented, the others are. *)
Theorem repr_indents_all_but_first_line
        (self : Message.t) (c : ascii) (rest : string) :
  json_dumps (MessageText.attributes self) = String c rest ->
  Text.isspace c = false ->
  MessageText.__repr__ repr_bytes repr_str json_dumps self
  = MessageText._MESSAGE_REPR_format
      (repr_bytes
         (MessageText.abbreviated_data
            (PubsubMessage.data (Message._message self))))
      (repr_str (Message.ordering_key self))
      (Text.join (Text.newline ++ "  ")
                 (Text.split_newline (json_dumps (MessageText.attributes self)))).
Proof.
  intros J Sp. unfold MessageText.__repr__. cbv zeta.
  rewrite J. now rewrite (lstrip_indent c rest Sp).
Qed.

(** X6.  [__repr__] shows at most 53 bytes of the data: the data itself
    when it has at most 50 bytes, its first 50 bytes and three dots
    otherwise.  Cutting is idempotent, so a message has the [__repr__] of
    the message that carries its cut data. *)
Theorem repr_abbreviates_data (self : Message.t) :
  let data := PubsubMessage.data (Message._message self) in
  let shown := MessageText.abbreviated_data data in
  String.length shown <= 53
  /\ (String.length data <= 50 -> shown = data)
  /\ (50 < String.length data ->
      shown = (substring 0 50 data ++ "...")%string
      /\ String.length shown = 53)
  /\ MessageText.__repr__ repr_bytes repr_str json_dumps self
     = MessageText.__repr__ repr_bytes repr_str json_dumps
                            (MessageText.with_data shown self).
Proof.
  cbv zeta. unfold MessageText.abbreviated_data at 1 2 3 4.
  destruct (50 <? String.length (PubsubMessage.data (Message._message self)))
    eqn:Long.
  - apply Nat.ltb_lt in Long.
    assert (L : String.length
                  (substring 0 50 (PubsubMessage.data (Message._message self))
                   ++ "...") = 53).
    { rewrite length_append, length_substring_0.
      change (String.length "...") with 3. lia. }
    split; [lia |]. split; [lia |]. split; [now split |].
    unfold MessageText.__repr__. cbv zeta. simpl PubsubMessage.data.
    now rewrite abbreviated_data_twice.
  - apply Nat.ltb_ge in Long.
    split; [lia |]. split; [reflexivity |]. split; [lia |].
    unfold MessageText.__repr__. cbv zeta. simpl PubsubMessage.data.
    now rewrite abbreviated_data_twice.
Qed.

End ReprFacts.

Lemma repr_indents_all_but_first_line_witness :
  MessageText.__repr__ Specimen.quoted Specimen.quoted Specimen.braces
                       Sample.handle
  = MessageText._MESSAGE_REPR_format
      (Specimen.quoted "payload") (Specimen.quoted "k")
      ("{" ++ Text.newline ++ "  " ++ Text.newline ++ "  }")%string.
Proof.
  apply (repr_indents_all_but_first_line
           Specimen.quoted Specimen.quoted Specimen.braces Sample.handle
           "{"%char (Text.newline ++ Text.newline ++ "}")%string);
    reflexivity.
Defined.

Lemma repr_abbreviates_data_witness :
  String.length
    (MessageText.abbreviated_data
       (PubsubMessage.data (Message._message Specimen.long_handle))) = 53.
Proof.
  destruct (repr_abbreviates_data Specimen.quoted Specimen.quoted
                                      Specimen.braces Specimen.long_handle)
    as (_ & _ & H & _).
  apply H. apply Nat.ltb_lt. reflexivity.
Defined.

(** ** [Message.__init__] *)

(** X7.  [Message.__init__] touches nothing of the world, and it raises
    exactly when [dt.datetime.fromtimestamp] raises on the publish time, with
    the same exception; no handle is made then.  Otherwise it returns the
    handle, whose [publish_time] is the datetime that [fromtimestamp]
    returned.  The handle's [delivery_attempt] is the given counter when
    that is positive and [None] otherwise, so it is never zero or negative;
    its receive time is the clock reading, and its ack id, size, ordering
    key, data and attributes are the given ack id and those of the
    message. *)
Theorem init_builds_the_handle
        (fromtimestamp : Q -> Outcome datetime.t)
        (message : PubsubMessage.t) (ack_id : string) (delivery_attempt : Z)
        (w : World) :
  let converted := fromtimestamp (Message.publish_timestamp message) in
  let made := Message.__init__ fromtimestamp message ack_id delivery_attempt w in
  exec (Message.__init__ fromtimestamp message ack_id delivery_attempt) w = w
  /\ (forall e : Exn, converted = Raised e <-> fst made = Raised e)
  /\ (forall publish_time : datetime.t,
        converted = Returned publish_time ->
        exists self : Message.t,
          made = (Returned self, w)
          /\ Message._publish_time self = publish_time
          /\ (forall n : Z,
                Message.delivery_attempt self = Some n <->
                n = delivery_attempt /\ (0 < n)%Z)
          /\ (Message.delivery_attempt self = None <-> (delivery_attempt <= 0)%Z)
          /\ Message._received_timestamp self = now w
          /\ Message.ack_id self = ack_id
          /\ Message.size self = PubsubMessage.ByteSize message
          /\ Message.ordering_key self = PubsubMessage.ordering_key message
          /\ Message._data self = PubsubMessage.data message
          /\ Message.message_id self = PubsubMessage.message_id message
          /\ MessageText.attributes self = PubsubMessage.attributes message
          /\ Message._message self = message)
  /\ (forall self : Message.t,
        fst made = Returned self ->
        exists publish_time : datetime.t, converted = Returned publish_time).
Proof.
  cbv zeta. unfold exec. rewrite init_run.
  destruct (fromtimestamp (Message.publish_timestamp message))
    as [publish_time | e].
  - split; [reflexivity |]. split; [| split].
    + intros e. split; discriminate.
    + intros p E. injection E as <-. eexists. split; [reflexivity |].
      unfold Message.delivery_attempt. cbn.
      destruct (Z.gtb_spec delivery_attempt 0) as [G | G].
      * split; [reflexivity |]. split; [| split; [| now repeat split]].
        -- intros n. split.
           ++ intros E. injection E as E. lia.
           ++ intros [E _]. now subst n.
        -- split; [discriminate | lia].
      * split; [reflexivity |]. split; [| split; [| now repeat split]].
        -- intros n. split; [discriminate | lia].
        -- now split.
    + intros self _. now exists publish_time.
  - split; [reflexivity |]. split; [| split].
    + intros e'. cbn. split; intros E; injection E as <-; reflexivity.
    + discriminate.
    + discriminate.
Qed.

(** A message published in the first second of the year 10000: the sample
    conversion raises, and so does the constructor. *)
Lemma init_builds_the_handle_witness :
  fst (Message.__init__ Sample.fromtimestamp Sample.too_late "a" 1 Sample.world)
  = Raised (ValueError "year is out of range").
Proof.
  apply (init_builds_the_handle Sample.fromtimestamp Sample.too_late "a" 1
                                Sample.world).
  vm_compute. reflexivity.
Defined.

(** ** The shape of the chunks *)

Lemma chunked_snoc {A : Type} (size total : nat) (l : list A) :
  chunked size (S total) l
  = chunked size total l ++ [firstn size (skipn (total * size) l)].
Proof.
  revert l. induction total as [|total IH]; intros l.
  - reflexivity.
  - change (chunked size (S (S total)) l)
      with (firstn size l :: chunked size (S total) (skipn size l)).
    rewrite IH, skipn_skipn.
    replace (total * size + size) with (S total * size) by lia.
    reflexivity.
Qed.

Lemma chunked_full {A : Type} (size total : nat) (l : list A) :
  total * size <= List.length l ->
  Forall (fun c => List.length c = size) (chunked size total l).
Proof.
  revert l. induction total as [|total IH]; intros l L; simpl.
  - constructor.
  - constructor.
    + rewrite length_firstn. simpl in L. lia.
    + apply IH. rewrite length_skipn. simpl in L. lia.
Qed.

(** A non-empty list, cut in the rounded-up number of chunks, gives full
    chunks and a last one that is not empty. *)
Lemma chunked_shape {A : Type} (l : list A) :
  l <> [] ->
  exists full last,
    chunked Dispatcher._ACK_IDS_BATCH_SIZE
            (Dispatcher.total_chunks (List.length l)) l = full ++ [last]
    /\ Forall (fun c => List.length c = Dispatcher._ACK_IDS_BATCH_SIZE) full
    /\ 1 <= List.length last <= Dispatcher._ACK_IDS_BATCH_SIZE.
Proof.
  intros N.
  pose proof (total_chunks_ceiling (List.length l)) as [Lo Hi].
  assert (Pos : 0 < List.length l) by (destruct l; [contradiction | simpl; lia]).
  assert (C : 0 < Dispatcher._ACK_IDS_BATCH_SIZE)
    by (unfold Dispatcher._ACK_IDS_BATCH_SIZE; lia).
  destruct (Dispatcher.total_chunks (List.length l)) as [|k] eqn:K;
    [simpl in Lo; lia |].
  generalize dependent Dispatcher._ACK_IDS_BATCH_SIZE. intros c Lo Hi C.
  exists (chunked c k l), (firstn c (skipn (k * c) l)).
  split; [apply chunked_snoc |].
  split; [apply chunked_full; simpl in Hi; lia |].
  rewrite length_firstn, length_skipn. simpl in Lo, Hi. lia.
Qed.

(** X8.  Neither [ack] nor [modify_ack_deadline] sends an empty request:
    a non-empty list of items goes out in requests that all carry 2500 ack
    ids, except the last one, which carries between 1 and 2500; an empty
    list goes out in no request. *)
Theorem chunks_are_full_but_the_last :
  (forall (items : list AckRequest.t) (w : World),
      let requests := sent (issued (Dispatcher.ack items) w) in
      (items = [] -> requests = [])
      /\ (items <> [] ->
          exists full last,
            requests = full ++ [last]
            /\ Forall (fun r =>
                         List.length (StreamingPullRequest.ack_ids r)
                         = Dispatcher._ACK_IDS_BATCH_SIZE) full
            /\ 1 <= List.length (StreamingPullRequest.ack_ids last)
               <= Dispatcher._ACK_IDS_BATCH_SIZE))
  /\ (forall (items : list ModAckRequest.t) (w : World),
      let requests := sent (issued (Dispatcher.modify_ack_deadline items) w) in
      (items = [] -> requests = [])
      /\ (items <> [] ->
          exists full last,
            requests = full ++ [last]
            /\ Forall (fun r =>
                         List.length
                           (StreamingPullRequest.modify_deadline_ack_ids r)
                         = Dispatcher._ACK_IDS_BATCH_SIZE) full
            /\ 1 <= List.length
                      (StreamingPullRequest.modify_deadline_ack_ids last)
               <= Dispatcher._ACK_IDS_BATCH_SIZE)).
Proof.
  split; intros items w; cbv zeta.
  - rewrite ack_sends. split.
    + intros E. subst items. reflexivity.
    + intros N.
      destruct (chunked_shape (map AckRequest.ack_id items))
        as (full & last & E & F & L).
      { intros E. apply map_eq_nil in E. contradiction. }
      exists (map (fun chunk => StreamingPullRequest.mk chunk [] []) full),
             (StreamingPullRequest.mk last [] []).
      unfold ack_requests_for. rewrite E, map_app. split; [reflexivity |].
      split; [| exact L].
      apply Forall_map. eapply Forall_impl; [| exact F]. now intros c Hc.
  - rewrite modify_ack_deadline_issued, sent_send. split.
    + intros E. subst items. reflexivity.
    + intros N.
      destruct (chunked_shape items) as (full & last & E & F & L);
        [exact N |].
      exists (map (fun chunk =>
                     StreamingPullRequest.mk []
                       (map ModAckRequest.ack_id chunk)
                       (map ModAckRequest.seconds chunk)) full),
             (StreamingPullRequest.mk [] (map ModAckRequest.ack_id last)
                                      (map ModAckRequest.seconds last)).
      unfold modack_requests_for. rewrite E, map_app. split; [reflexivity |].
      split.
      * apply Forall_map. eapply Forall_impl; [| exact F].
        intros c Hc. simpl. now rewrite length_map.
      * simpl. now rewrite length_map.
Qed.

Lemma chunks_are_full_but_the_last_witness :
  exists full last,
    sent (issued (Dispatcher.ack [Sample.an_ack]) Sample.world)
    = full ++ [last]
    /\ Forall (fun r =>
                 List.length (StreamingPullRequest.ack_ids r)
                 = Dispatcher._ACK_IDS_BATCH_SIZE) full
    /\ 1 <= List.length (StreamingPullRequest.ack_ids last)
       <= Dispatcher._ACK_IDS_BATCH_SIZE.
Proof.
  apply (proj1 chunks_are_full_but_the_last [Sample.an_ack] Sample.world).
  discriminate.
Defined.

(** ** What a dispatch sends, adds and removes *)

Lemma sent_handle_calls (b : Dispatcher.Buckets) :
  sent (handle_calls b)
  = (if nonempty (Dispatcher.modack_requests b)
     then modack_requests_for (Dispatcher.modack_requests b) else [])
    ++ (if nonempty (Dispatcher.ack_requests b)
        then ack_requests_for
               (map AckRequest.ack_id (Dispatcher.ack_requests b))
        else [])
    ++ (if nonempty (Dispatcher.nack_requests b)
        then modack_requests_for (nack_modacks (Dispatcher.nack_requests b))
        else []).
Proof.
  unfold handle_calls, if_nonempty. rewrite !sent_app.
  assert (L : sent (if nonempty (Dispatcher.lease_requests b)
                    then lease_calls (Dispatcher.lease_requests b) else [])
              = []) by now destruct (nonempty (Dispatcher.lease_requests b)).
  assert (D : sent (if nonempty (Dispatcher.drop_requests b)
                    then drop_calls
                           (map DropItem.of_drop (Dispatcher.drop_requests b))
                    else [])
              = []) by now destruct (nonempty (Dispatcher.drop_requests b)).
  rewrite L, D, app_nil_r. simpl app. f_equal; [| f_equal].
  - destruct (nonempty (Dispatcher.modack_requests b)); [| reflexivity].
    apply sent_send.
  - destruct (nonempty (Dispatcher.ack_requests b)); [| reflexivity].
    unfold ack_calls.
    rewrite !sent_app, sent_histogram, sent_send. simpl. apply app_nil_r.
  - destruct (nonempty (Dispatcher.nack_requests b)); [| reflexivity].
    unfold nack_calls. rewrite sent_app, sent_send. simpl. apply app_nil_r.
Qed.

Lemma total_chunks_one (n : nat) :
  0 < n <= Dispatcher._ACK_IDS_BATCH_SIZE -> Dispatcher.total_chunks n = 1.
Proof.
  intros [Lo Hi]. pose proof (total_chunks_ceiling n) as [A B].
  assert (C : 0 < Dispatcher._ACK_IDS_BATCH_SIZE)
    by (unfold Dispatcher._ACK_IDS_BATCH_SIZE; lia).
  generalize dependent Dispatcher._ACK_IDS_BATCH_SIZE. intros c Hi A B C.
  destruct (Dispatcher.total_chunks n) as [|[|k]]; simpl in *; lia.
Qed.

Lemma one_chunk {A : Type} (l : list A) :
  0 < List.length l <= Dispatcher._ACK_IDS_BATCH_SIZE ->
  chunked Dispatcher._ACK_IDS_BATCH_SIZE
          (Dispatcher.total_chunks (List.length l)) l = [l].
Proof.
  intros H. rewrite (total_chunks_one _ H).
  change (chunked Dispatcher._ACK_IDS_BATCH_SIZE 1 l)
    with [firstn Dispatcher._ACK_IDS_BATCH_SIZE l].
  now rewrite firstn_all2 by apply H.
Qed.

Lemma selection_is_shorter {A : Type} (select : QueueItem -> list A)
      (items : list QueueItem) :
  (forall x, List.length (select x) <= 1) ->
  List.length (flat_map select items) <= List.length items.
Proof.
  intros H. induction items as [|x items IH]; simpl; [lia |].
  rewrite length_app. specialize (H x). lia.
Qed.

Lemma buckets_are_shorter (items : list QueueItem) :
  List.length (Batch.modacks items) <= List.length items
  /\ List.length (Batch.acks items) <= List.length items
  /\ List.length (Batch.nacks items) <= List.length items.
Proof.
  repeat split; apply selection_is_shorter;
    intros [[r|r|r|r|r] | ty]; simpl; lia.
Qed.

Lemma nonempty_length {A : Type} (l : list A) :
  nonempty l = true -> 0 < List.length l.
Proof. destruct l; simpl; [discriminate | lia]. Qed.

(** X9.  A batch of at most [_MAX_BATCH_SIZE] items, the most that the
    worker of [start] hands over, never needs splitting: with the leaser
    present, [dispatch_callback] sends at most three requests, in this
    order: one with all the deadline changes of the modack items, one with
    all the ack ids of the ack items, one with the ack ids of all the nack
    items and deadline 0 for each; a kind without items sends nothing. *)
Theorem small_batch_sends_one_request_per_kind
        (items : list QueueItem) (w : World) :
  List.length items <= Dispatcher._MAX_BATCH_SIZE ->
  leaser_present w = true ->
  sent (issued (Dispatcher.dispatch_callback items) w)
  = (if nonempty (Batch.modacks items)
     then [StreamingPullRequest.mk
             []
             (map ModAckRequest.ack_id (Batch.modacks items))
             (map ModAckRequest.seconds (Batch.modacks items))]
     else [])
    ++ (if nonempty (Batch.acks items)
        then [StreamingPullRequest.mk
                (map AckRequest.ack_id (Batch.acks items)) [] []]
        else [])
    ++ (if nonempty (Batch.nacks items)
        then [StreamingPullRequest.mk
                []
                (map NackRequest.ack_id (Batch.nacks items))
                (map (fun _ => 0%Z) (Batch.nacks items))]
        else []).
Proof.
  intros Small P. rewrite (issued_present _ _ P), sent_handle_calls.
  destruct (buckets_are_shorter items) as (Mo & A & N).
  assert (Cap : Dispatcher._MAX_BATCH_SIZE <= Dispatcher._ACK_IDS_BATCH_SIZE)
    by (apply Nat.leb_le; reflexivity).
  cbn [Batch.buckets Dispatcher.modack_requests Dispatcher.ack_requests
       Dispatcher.nack_requests].
  f_equal; [| f_equal].
  - destruct (nonempty (Batch.modacks items)) eqn:E; [| reflexivity].
    apply nonempty_length in E.
    unfold modack_requests_for. rewrite one_chunk by lia. reflexivity.
  - destruct (nonempty (Batch.acks items)) eqn:E; [| reflexivity].
    apply nonempty_length in E.
    unfold ack_requests_for.
    rewrite one_chunk by (rewrite length_map; lia). reflexivity.
  - destruct (nonempty (Batch.nacks items)) eqn:E; [| reflexivity].
    apply nonempty_length in E.
    unfold modack_requests_for, nack_modacks.
    rewrite one_chunk by (rewrite length_map; lia).
    simpl. now rewrite !map_map.
Qed.

Lemma small_batch_sends_one_request_per_kind_witness :
  sent (issued (Dispatcher.dispatch_callback Sample.ack_then_lease)
               Sample.world)
  = [StreamingPullRequest.mk ["a"] [] []].
Proof.
  apply (small_batch_sends_one_request_per_kind Sample.ack_then_lease
                                                Sample.world).
  - apply Nat.leb_le. reflexivity.
  - reflexivity.
Defined.

(** ** Handlers on an empty list *)

(** X10.  Called with an empty list, outside [dispatch_callback],
    [modify_ack_deadline] does nothing at all, and [ack] and [nack] do what
    [drop] does: nothing is sent, nothing is recorded, and, the leaser being
    present, the leaser is asked to remove an empty list, no ordering key is
    activated and the consumer check is made; [lease] asks the leaser to add
    an empty list.  Without the leaser they raise the assertion error and
    call nothing. *)
Theorem handlers_on_an_empty_list (w : World) :
  Dispatcher.modify_ack_deadline [] w = (Returned tt, w)
  /\ Dispatcher.ack [] w = Dispatcher.drop [] w
  /\ Dispatcher.nack [] w = Dispatcher.drop [] w
  /\ issued (Dispatcher.drop []) w
     = (if leaser_present w
        then [leaser_remove []; activate_ordering_keys [];
              maybe_resume_consumer]
        else [])
  /\ issued (Dispatcher.lease []) w
     = (if leaser_present w
        then [leaser_add []; maybe_pause_consumer]
        else [])
  /\ (leaser_present w = false ->
      Dispatcher.drop [] w = (Raised AssertionError, w)
      /\ Dispatcher.lease [] w = (Raised AssertionError, w)).
Proof.
  assert (Mo : Dispatcher.modify_ack_deadline [] w = (Returned tt, w)).
  { rewrite modify_ack_deadline_run.
    change (modack_requests_for []) with (@nil StreamingPullRequest.t).
    simpl. now rewrite add_calls_nil. }
  split; [exact Mo |].
  split; [| split; [| split; [| split]]].
  - rewrite ack_run, drop_run. cbv zeta.
    change (ack_requests_for (map AckRequest.ack_id []))
      with (@nil StreamingPullRequest.t).
    simpl. now rewrite add_calls_nil.
  - unfold Dispatcher.nack. simpl map.
    now rewrite (bind_run _ _ _ _ _ Mo).
  - apply drop_issued.
  - pose proof (lease_run [] w) as R.
    destruct (leaser_present w); apply issued_calls; unfold exec; rewrite R.
    + reflexivity.
    + simpl. now rewrite add_calls_nil.
  - intros A. now rewrite drop_run, lease_run, A.
Qed.

Lemma handlers_on_an_empty_list_witness :
  Dispatcher.drop [] (mkWorld false [] [] [] None [] 0)
  = (Raised AssertionError, mkWorld false [] [] [] None [] 0).
Proof.
  apply (handlers_on_an_empty_list (mkWorld false [] [] [] None [] 0)).
  reflexivity.
Defined.

(** ** The leaser sees every item once *)

Lemma added_app (cs1 cs2 : list Call) :
  Observed.added (cs1 ++ cs2) = Observed.added cs1 ++ Observed.added cs2.
Proof. apply flat_map_app. Qed.

Lemma removed_app (cs1 cs2 : list Call) :
  Observed.removed (cs1 ++ cs2)
  = Observed.removed cs1 ++ Observed.removed cs2.
Proof. apply flat_map_app. Qed.

Lemma recorded_app (cs1 cs2 : list Call) :
  Observed.recorded (cs1 ++ cs2)
  = Observed.recorded cs1 ++ Observed.recorded cs2.
Proof. apply flat_map_app. Qed.

Lemma observed_send (rs : list StreamingPullRequest.t) :
  Observed.added (map send rs) = []
  /\ Observed.removed (map send rs) = []
  /\ Observed.recorded (map send rs) = [].
Proof. induction rs as [|r rs IH]; simpl; [now repeat split | exact IH]. Qed.

Lemma observed_histogram (ts : list Z) :
  Observed.added (map ack_histogram_add ts) = []
  /\ Observed.removed (map ack_histogram_add ts) = []
  /\ Observed.recorded (map ack_histogram_add ts) = ts.
Proof.
  induction ts as [|t ts (A & R & H)]; simpl; [now repeat split |].
  now rewrite H.
Qed.

Lemma observed_handle_calls (b : Dispatcher.Buckets) :
  Observed.added (handle_calls b) = Dispatcher.lease_requests b
  /\ Observed.removed (handle_calls b)
     = map DropItem.of_ack (Dispatcher.ack_requests b)
       ++ nack_drops (Dispatcher.nack_requests b)
       ++ map DropItem.of_drop (Dispatcher.drop_requests b)
  /\ Observed.recorded (handle_calls b)
     = times_to_ack (Dispatcher.ack_requests b).
Proof.
  unfold handle_calls, if_nonempty, lease_calls, modack_calls, ack_calls,
    nack_calls, drop_calls.
  destruct b as [L Mo A N D]. cbn [Dispatcher.lease_requests
    Dispatcher.modack_requests Dispatcher.ack_requests
    Dispatcher.nack_requests Dispatcher.drop_requests].
  pose proof (observed_send (modack_requests_for Mo)) as (S1 & S2 & S3).
  pose proof (observed_send (ack_requests_for (map AckRequest.ack_id A)))
    as (T1 & T2 & T3).
  pose proof (observed_send (modack_requests_for (nack_modacks N)))
    as (U1 & U2 & U3).
  pose proof (observed_histogram (times_to_ack A)) as (H1 & H2 & H3).
  split; [| split].
  - rewrite !added_app.
    destruct L, Mo, A, N, D; cbn [nonempty];
      rewrite ?added_app, ?S1, ?T1, ?U1, ?H1; simpl;
      rewrite ?app_nil_r; reflexivity.
  - rewrite !removed_app.
    destruct L, Mo, A, N, D; cbn [nonempty];
      rewrite ?removed_app, ?S2, ?T2, ?U2, ?H2; simpl;
      rewrite ?app_nil_r; reflexivity.
  - rewrite !recorded_app.
    destruct L, Mo, A, N, D; cbn [nonempty];
      rewrite ?recorded_app, ?S3, ?T3, ?U3, ?H3; simpl;
      rewrite ?app_nil_r; reflexivity.
Qed.

(** X11.  With the leaser present, one [dispatch_callback] gives the
    leaser each item once: what it adds, call after call, are the lease
    requests of the batch, in order; what it removes are the ack requests
    of the batch, then its nack requests (as drop requests), then its drop
    requests, so the ack ids removed are those of the ack, nack and drop
    items and never one of only a lease or modack item; what it records in
    the histogram are the times of the ack requests that have one. *)
Theorem dispatch_callback_gives_the_leaser_each_item_once
        (items : list QueueItem) (w : World) :
  leaser_present w = true ->
  let log := issued (Dispatcher.dispatch_callback items) w in
  Observed.added log = Batch.leases items
  /\ Observed.removed log
     = map DropItem.of_ack (Batch.acks items)
       ++ map (fun i =>
                 DropItem.of_drop
                   (DropRequest.mk (NackRequest.ack_id i)
                                   (NackRequest.byte_size i)
                                   (NackRequest.ordering_key i)))
              (Batch.nacks items)
       ++ map DropItem.of_drop (Batch.drops items)
  /\ map DropItem.ack_id (Observed.removed log)
     = map AckRequest.ack_id (Batch.acks items)
       ++ map NackRequest.ack_id (Batch.nacks items)
       ++ map DropRequest.ack_id (Batch.drops items)
  /\ Observed.recorded log = times_to_ack (Batch.acks items).
Proof.
  intros P. cbv zeta. rewrite (issued_present _ _ P).
  destruct (observed_handle_calls (Batch.buckets items)) as (A & R & H).
  split; [exact A |]. split; [exact R |]. split; [| exact H].
  rewrite R. cbn [Batch.buckets Dispatcher.ack_requests
                  Dispatcher.nack_requests Dispatcher.drop_requests].
  unfold nack_drops. rewrite !map_app, !map_map. reflexivity.
Qed.

Lemma dispatch_callback_gives_the_leaser_each_item_once_witness :
  Observed.added
    (issued (Dispatcher.dispatch_callback Sample.ack_then_lease) Sample.world)
  = [Sample.a_lease].
Proof.
  apply (dispatch_callback_gives_the_leaser_each_item_once
           Sample.ack_then_lease Sample.world).
  reflexivity.
Defined.

(** ** What a dispatch sends *)

Lemma if_nonempty_flat {A B : Type} (xs : list A) (f : list A -> list B) :
  f [] = [] -> (if nonempty xs then f xs else []) = f xs.
Proof. intros E. destruct xs; [now rewrite E | reflexivity]. Qed.

Lemma acknowledged_app (rs1 rs2 : list StreamingPullRequest.t) :
  Observed.acknowledged (rs1 ++ rs2)
  = Observed.acknowledged rs1 ++ Observed.acknowledged rs2.
Proof. unfold Observed.acknowledged. now rewrite map_app, concat_app. Qed.

Lemma deadlines_app (rs1 rs2 : list StreamingPullRequest.t) :
  Observed.deadlines (rs1 ++ rs2)
  = Observed.deadlines rs1 ++ Observed.deadlines rs2.
Proof. unfold Observed.deadlines. now rewrite map_app, concat_app. Qed.

Lemma concat_nils {A B : Type} (f : A -> list B) (l : list A) :
  (forall x, f x = []) -> List.concat (map f l) = [].
Proof.
  intros H. induction l as [|x l IH]; simpl; [reflexivity |].
  now rewrite H, IH.
Qed.

Lemma observed_ack_requests (ack_ids : list string) :
  Observed.acknowledged (ack_requests_for ack_ids) = ack_ids
  /\ Observed.deadlines (ack_requests_for ack_ids) = [].
Proof.
  split; [apply ack_requests_for_spec |].
  unfold Observed.deadlines, ack_requests_for. rewrite map_map.
  now apply concat_nils.
Qed.

Lemma observed_modack_requests (items : list ModAckRequest.t) :
  Observed.acknowledged (modack_requests_for items) = []
  /\ Observed.deadlines (modack_requests_for items)
     = map (fun i => (ModAckRequest.ack_id i, ModAckRequest.seconds i)) items.
Proof.
  split; [| apply modack_requests_for_spec].
  unfold Observed.acknowledged, modack_requests_for. rewrite map_map.
  now apply concat_nils.
Qed.

(** X12.  With the leaser present, whatever the size of the batch, the
    requests of one [dispatch_callback] acknowledge the ack ids of the ack
    items of the batch, each once and in order, and change the deadlines of
    the modack items to their seconds, in order, and then those of the nack
    items to 0: no id is lost, repeated or invented by the chunking. *)
Theorem dispatch_callback_sends_each_id_once
        (items : list QueueItem) (w : World) :
  leaser_present w = true ->
  let requests := sent (issued (Dispatcher.dispatch_callback items) w) in
  Observed.acknowledged requests = map AckRequest.ack_id (Batch.acks items)
  /\ Observed.deadlines requests
     = map (fun i => (ModAckRequest.ack_id i, ModAckRequest.seconds i))
           (Batch.modacks items)
       ++ map (fun i => (NackRequest.ack_id i, 0%Z)) (Batch.nacks items).
Proof.
  intros P. cbv zeta. rewrite (issued_present _ _ P), sent_handle_calls.
  cbn [Batch.buckets Dispatcher.modack_requests Dispatcher.ack_requests
       Dispatcher.nack_requests].
  rewrite (if_nonempty_flat (Batch.modacks items) modack_requests_for)
    by reflexivity.
  rewrite (if_nonempty_flat (Batch.acks items)
             (fun a => ack_requests_for (map AckRequest.ack_id a)))
    by reflexivity.
  rewrite (if_nonempty_flat (Batch.nacks items)
             (fun n => modack_requests_for (nack_modacks n)))
    by reflexivity.
  rewrite !acknowledged_app, !deadlines_app.
  destruct (observed_modack_requests (Batch.modacks items)) as (M1 & M2).
  destruct (observed_ack_requests (map AckRequest.ack_id (Batch.acks items)))
    as (A1 & A2).
  destruct (observed_modack_requests (nack_modacks (Batch.nacks items)))
    as (N1 & N2).
  unfold nack_modacks in N2 at 2. rewrite map_map in N2. simpl in N2.
  rewrite M1, M2, A1, A2, N1, N2. simpl. now rewrite app_nil_r.
Qed.

Lemma dispatch_callback_sends_each_id_once_witness :
  Observed.acknowledged
    (sent (issued (Dispatcher.dispatch_callback Sample.ack_then_lease)
                  Sample.world))
  = ["a"].
Proof.
  apply (dispatch_callback_sends_each_id_once Sample.ack_then_lease
                                              Sample.world).
  reflexivity.
Defined.

(** ** What a dispatch leaves alone *)

(** X13.  In every world and whatever its outcome, [dispatch_callback]
    changes only the call log and the warnings: it puts nothing on the
    request queue (so handling a batch never makes another batch), starts
    and stops no thread, and adds one warning for each item of the batch
    that is no request item. *)
Theorem dispatch_callback_leaves_the_queue_alone
        (items : list QueueItem) (w : World) :
  let w' := exec (Dispatcher.dispatch_callback items) w in
  queue w' = queue w
  /\ _thread w' = _thread w
  /\ started w' = started w
  /\ now w' = now w
  /\ leaser_present w' = leaser_present w
  /\ warned w' = warned w ++ Batch.warnings items
  /\ List.length (Batch.warnings items)
     = List.length (filter (fun x => negb (Batch.is_request x)) items).
Proof.
  cbv zeta.
  destruct (dispatch_callback_prefix items w) as (cs & rest & E & _).
  rewrite E. repeat split. apply warnings_count.
Qed.

(** ** Stopping and starting again *)

Section RestartFacts.

Variable join : Thread -> World -> World.

(** X14.  Whatever the state before, [start] after [stop] returns: the
    dispatcher can be started again.  It then holds a thread that [start]
    has started, a daemon named after [_CALLBACK_WORKER_NAME] whose worker
    takes at most [_MAX_BATCH_SIZE] items and waits at most
    [_MAX_BATCH_LATENCY]; [start] itself puts nothing on the queue and calls
    no collaborator. *)
Theorem start_after_stop_runs_again (w : World) :
  let stopped := exec (Dispatcher.stop join) w in
  let restarted := exec Dispatcher.start stopped in
  outcome Dispatcher.start stopped = Returned tt
  /\ (exists thread : Thread,
        _thread restarted = Some thread
        /\ started restarted = started stopped ++ [thread]
        /\ daemon thread = true
        /\ name thread = Dispatcher._CALLBACK_WORKER_NAME
        /\ max_items (target thread) = Dispatcher._MAX_BATCH_SIZE
        /\ max_latency (target thread) = Dispatcher._MAX_BATCH_LATENCY)
  /\ queue restarted = queue stopped
  /\ calls restarted = calls stopped
  /\ Dispatcher.start restarted
     = (Raised (ValueError "Dispatcher is already running."), restarted).
Proof.
  cbv zeta. destruct (stop_clears join w) as [_ T].
  rewrite <- (set_thread_same (exec (Dispatcher.stop join) w)), T.
  split; [reflexivity |]. split; [| now repeat split].
  eexists. repeat split.
Qed.

End RestartFacts.

(** ** From the handle to the collaborators *)

(** X15.  What a handle operation puts on the queue, dispatched with the
    leaser present, reaches the collaborators as follows.  After [ack()]:
    the latency in the histogram (the ceiling of the float difference of the
    clock reading and the receive time), one request acknowledging the ack
    id, the
    leaser's removal of the request, the activation of the handle's ordering
    key if it is not empty, the consumer check.  After [nack()]: one request
    setting the deadline of the ack id to 0, then removal, activation and
    check.  After [drop()]: removal, activation and check, no request.
    After [modify_ack_deadline(seconds)]: one request setting the deadline
    of the ack id to the seconds, and nothing else. *)
Theorem handle_operation_then_dispatch
        (op : Handle.Operation) (self : Message.t) (w0 w : World) :
  leaser_present w = true ->
  let ack_id := Message.ack_id self in
  let size := Message.size self in
  let key := Message.ordering_key self in
  let keys := if truthy key then [key] else [] in
  exists x : QueueItem,
    Handle.perform op self w0 = (Returned tt, (self, enqueue (entry x) w0))
    /\ issued (Dispatcher.dispatch_callback [x]) w
       = match op with
         | Handle.op_ack =>
             let latency :=
               Float.ceil
                 (Float.sub (now w0) (Message._received_timestamp self)) in
             [ack_histogram_add latency;
              send (StreamingPullRequest.mk [ack_id] [] []);
              leaser_remove
                [DropItem.of_ack
                   (AckRequest.mk ack_id size (Some latency) key)];
              activate_ordering_keys keys;
              maybe_resume_consumer]
         | Handle.op_nack =>
             [send (StreamingPullRequest.mk [] [ack_id] [0%Z]);
              leaser_remove
                [DropItem.of_drop (DropRequest.mk ack_id size key)];
              activate_ordering_keys keys;
              maybe_resume_consumer]
         | Handle.op_modify_ack_deadline seconds =>
             [send (StreamingPullRequest.mk [] [ack_id] [seconds])]
         | Handle.op_drop =>
             [leaser_remove
                [DropItem.of_drop (DropRequest.mk ack_id size key)];
              activate_ordering_keys keys;
              maybe_resume_consumer]
         end.
Proof.
  intros P. cbv zeta.
  exists (request_item (Handle.request_of op self (now w0))).
  split; [apply perform_run |].
  rewrite (issued_present _ _ P).
  destruct op; unfold handle_calls, if_nonempty; cbn [Batch.buckets
    Handle.request_of Batch.leases Batch.modacks Batch.acks Batch.nacks
    Batch.drops flat_map app Dispatcher.lease_requests
    Dispatcher.modack_requests Dispatcher.ack_requests
    Dispatcher.nack_requests Dispatcher.drop_requests nonempty];
    unfold ack_calls, nack_calls, modack_calls, drop_calls,
    ack_requests_for, modack_requests_for, nack_modacks, nack_drops;
    cbn [map List.length];
    rewrite ?(total_chunks_one 1) by (split; [lia | apply Nat.leb_le; reflexivity]);
    cbn [chunked]; rewrite ?firstn_all2 by (apply Nat.leb_le; reflexivity);
    cbn [map app times_to_ack flat_map AckRequest.time_to_ack
         AckRequest.ordering_key DropItem.ordering_key
         DropRequest.ordering_key ModAckRequest.ack_id ModAckRequest.seconds
         NackRequest.ack_id NackRequest.byte_size NackRequest.ordering_key
         filter];
    try destruct (truthy (Message.ordering_key self)); reflexivity.
Qed.

Lemma handle_operation_then_dispatch_witness :
  exists x : QueueItem,
    Handle.perform Handle.op_nack Sample.handle Sample.world
    = (Returned tt, (Sample.handle, enqueue (entry x) Sample.world))
    /\ issued (Dispatcher.dispatch_callback [x]) Sample.world
       = [send (StreamingPullRequest.mk [] ["a"] [0%Z]);
          leaser_remove [DropItem.of_drop (DropRequest.mk "a" 10 "k")];
          activate_ordering_keys ["k"];
          maybe_resume_consumer].
Proof.
  apply (handle_operation_then_dispatch Handle.op_nack Sample.handle
                                        Sample.world Sample.world).
  reflexivity.
Defined.

(** ** The latency that [ack] records *)

Lemma Qceiling_bounds (x : Q) :
  (x <= inject_Z (Qceiling x))%Q /\ (inject_Z (Qceiling x) < x + 1)%Q.
Proof.
  split; [apply Qle_ceiling |].
  pose proof (Qceiling_lt x) as H.
  unfold Z.sub in H. rewrite inject_Z_plus in H.
  set (c := inject_Z (Qceiling x)) in *.
  change (inject_Z (- (1))) with (- (1))%Q in H. lra.
Qed.

(** X16.  The [time_to_ack] that [ack()] enqueues is the float difference
    of the clock reading and the receive time, rounded up to the next
    integer: it lies less than one above that difference, and it is the
    ceiling of the exact elapsed time or one less (for a ceiling below
    [2^53]).  It is 0 or negative when the clock stands at the receive time
    or before it, and at least 1 when the clock, read as a double, has
    advanced since the message was received.  A later [ack()] never gives a
    smaller one. *)
Theorem ack_latency_rounds_up_and_grows
        (self : Message.t) (t t' : Q) (w w' : World) :
  (t <= t')%Q ->
  let received := Message._received_timestamp self in
  let request (n : Z) :=
    entry (request_item
             (Ack (AckRequest.mk (Message.ack_id self) (Message.size self)
                                 (Some n) (Message.ordering_key self)))) in
  exists n n' : Z,
    queue (snd (snd (Message.ack self (set_now t w)))) = queue w ++ [request n]
    /\ queue (snd (snd (Message.ack self (set_now t' w'))))
       = queue w' ++ [request n']
    /\ (n <= n')%Z
    /\ (Float.sub t received <= inject_Z n)%Q
    /\ (inject_Z n < Float.sub t received + 1)%Q
    /\ ((Z.abs (Qceiling (t - received)) < 2 ^ 53)%Z ->
        (Qceiling (t - received) - 1 <= n <= Qceiling (t - received))%Z)
    /\ ((t <= received)%Q -> (n <= 0)%Z)
    /\ (Float.is_float t = true -> Float.is_float received = true ->
        (received < t)%Q -> (0 < n)%Z).
Proof.
  intros L. cbv zeta.
  exists (Float.ceil (Float.sub t (Message._received_timestamp self))),
         (Float.ceil (Float.sub t' (Message._received_timestamp self))).
  split; [reflexivity |]. split; [reflexivity |].
  destruct (Qceiling_bounds (Float.sub t (Message._received_timestamp self)))
    as [Up Down].
  split; [now apply ceil_sub_mono |].
  split; [exact Up |]. split; [exact Down |].
  split; [apply ceil_sub_near |].
  split; [apply ceil_sub_nonpositive |].
  apply ceil_sub_positive.
Qed.

Lemma ack_latency_rounds_up_and_grows_witness :
  exists n n' : Z,
    queue (snd (snd (Message.ack Sample.handle (set_now (1 # 2) Sample.world))))
    = [entry (request_item (Ack (AckRequest.mk "a" 10 (Some n) "k")))]
    /\ queue (snd (snd (Message.ack Sample.handle
                                    (set_now (5 # 2) Sample.world))))
       = [entry (request_item (Ack (AckRequest.mk "a" 10 (Some n') "k")))]
    /\ (n <= n')%Z.
Proof.
  destruct (ack_latency_rounds_up_and_grows
              Sample.handle (1 # 2) (5 # 2) Sample.world Sample.world)
    as (n & n' & A & B & C & _).
  - discriminate.
  - exists n, n'. split; [exact A |]. split; [exact B | exact C].
Defined.

(** ** Items of different variants do not wait for each other *)

Lemma selections_commute (x y : QueueItem) :
  Observed.variant_of x <> Observed.variant_of y ->
  Batch.buckets [x; y] = Batch.buckets [y; x]
  /\ Batch.warnings [x; y] = Batch.warnings [y; x].
Proof.
  intros D.
  destruct x as [[r|r|r|r|r] | ty], y as [[r'|r'|r'|r'|r'] | ty'];
    try (now split); now contradiction D.
Qed.

Lemma buckets_app (l1 l2 : list QueueItem) :
  Batch.buckets (l1 ++ l2)
  = append_buckets (Batch.buckets l1) (Batch.buckets l2).
Proof.
  unfold Batch.buckets, append_buckets, Batch.leases, Batch.modacks,
    Batch.acks, Batch.nacks, Batch.drops. simpl.
  now rewrite !flat_map_app.
Qed.

Lemma warnings_app (l1 l2 : list QueueItem) :
  Batch.warnings (l1 ++ l2) = Batch.warnings l1 ++ Batch.warnings l2.
Proof.
  unfold Batch.warnings, Batch.foreign_types.
  now rewrite flat_map_app, map_app.
Qed.

(** X17.  Within a batch, two neighbours of different variants (or one
    of them no request item) can change places without any effect:
    [dispatch_callback] has the same outcome and leaves the same world.
    Only the order among the items of one variant counts. *)
Theorem dispatch_callback_ignores_order_across_variants
        (before after : list QueueItem) (x y : QueueItem) (w : World) :
  Observed.variant_of x <> Observed.variant_of y ->
  Dispatcher.dispatch_callback (before ++ x :: y :: after) w
  = Dispatcher.dispatch_callback (before ++ y :: x :: after) w.
Proof.
  intros D. destruct (selections_commute x y D) as [B W].
  rewrite !dispatch_callback_run.
  change (x :: y :: after) with ([x; y] ++ after).
  change (y :: x :: after) with ([y; x] ++ after).
  now rewrite !buckets_app, !warnings_app, B, W.
Qed.

Lemma dispatch_callback_ignores_order_across_variants_witness :
  Dispatcher.dispatch_callback
    [request_item (Ack Sample.an_ack); request_item (Lease Sample.a_lease)]
    Sample.world
  = Dispatcher.dispatch_callback
      [request_item (Lease Sample.a_lease); request_item (Ack Sample.an_ack)]
      Sample.world.
Proof.
  apply (dispatch_callback_ignores_order_across_variants
           [] [] (request_item (Ack Sample.an_ack))
           (request_item (Lease Sample.a_lease)) Sample.world).
  discriminate.
Defined.

(** ** Without a leaser *)

(** X18.  When the manager has no leaser, [lease] and [drop] raise the
    assertion error before any call.  [ack] and [nack] raise it too, but
    only after their requests are out: [ack] has recorded the latencies and
    acknowledged every ack id, [nack] has set every deadline to 0, and the
    leaser's removal, the activation of ordering keys and the consumer check
    are what is missing.  [modify_ack_deadline] needs no leaser. *)
Theorem handlers_without_a_leaser
        (leases : list LeaseRequest.t) (drops : list DropItem.t)
        (acks : list AckRequest.t) (nacks : list NackRequest.t)
        (modacks : list ModAckRequest.t) (w : World) :
  leaser_present w = false ->
  Dispatcher.lease leases w = (Raised AssertionError, w)
  /\ Dispatcher.drop drops w = (Raised AssertionError, w)
  /\ outcome (Dispatcher.ack acks) w = Raised AssertionError
  /\ Observed.recorded (issued (Dispatcher.ack acks) w) = times_to_ack acks
  /\ Observed.acknowledged (sent (issued (Dispatcher.ack acks) w))
     = map AckRequest.ack_id acks
  /\ Observed.removed (issued (Dispatcher.ack acks) w) = []
  /\ outcome (Dispatcher.nack nacks) w = Raised AssertionError
  /\ Observed.deadlines (sent (issued (Dispatcher.nack nacks) w))
     = map (fun i => (NackRequest.ack_id i, 0%Z)) nacks
  /\ Observed.removed (issued (Dispatcher.nack nacks) w) = []
  /\ outcome (Dispatcher.modify_ack_deadline modacks) w = Returned tt.
Proof.
  intros A.
  pose proof (ack_run acks w) as Ra. cbv zeta in Ra. rewrite A in Ra.
  pose proof (nack_run nacks w) as Rn. cbv zeta in Rn. rewrite A in Rn.
  pose proof (issued_calls _ _ _ (f_equal snd Ra)) as Ia.
  pose proof (issued_calls _ _ _ (f_equal snd Rn)) as In_.
  destruct (observed_histogram (times_to_ack acks)) as (_ & H2 & H3).
  destruct (observed_send (ack_requests_for (map AckRequest.ack_id acks)))
    as (_ & S2 & S3).
  destruct (observed_send (modack_requests_for (nack_modacks nacks)))
    as (_ & T2 & _).
  destruct (observed_modack_requests (nack_modacks nacks)) as (_ & D).
  unfold nack_modacks in D at 2. rewrite map_map in D. simpl in D.
  split; [now rewrite lease_run, A |].
  split; [now rewrite drop_run, A |].
  split; [unfold outcome; now rewrite Ra |].
  split; [rewrite Ia, recorded_app, H3, S3; apply app_nil_r |].
  split; [rewrite ack_sends; apply ack_requests_for_spec |].
  split; [rewrite Ia, removed_app, H2, S2; reflexivity |].
  split; [unfold outcome; now rewrite Rn |].
  split; [rewrite In_, sent_send; exact D |].
  split; [rewrite In_; exact T2 |].
  unfold outcome. now rewrite modify_ack_deadline_run.
Qed.

Lemma handlers_without_a_leaser_witness :
  Observed.acknowledged
    (sent (issued (Dispatcher.ack [Sample.an_ack])
                  (mkWorld false [] [] [] None [] 0)))
  = ["a"].
Proof.
  apply (handlers_without_a_leaser [] [] [Sample.an_ack] [] []
                                   (mkWorld false [] [] [] None [] 0)).
  reflexivity.
Defined.
